(** * CioEncoder: a shallow embedding of [htmresearch/encoders/cio_encoder.py]

    The encoder queries the Cortical.io service through a [cortipy] client and
    post-processes the fingerprints it gets back: union of token bitmaps, the
    backward sliding window, rescaling and the final sparsity.

    Conventions of the embedding.
    - Python exceptions are values of [exn]; a computation that may raise has
      type [result A], with stdpp's monadic notation [x ← m; k].
    - Python [float] is IEEE binary64, here Rocq's primitive [float]; the
      arithmetic and the comparisons are the primitive ones, so a concrete run
      evaluates bit for bit as CPython does.
    - Python 2 [int] is a machine word; integers are [Z] and the conversion to
      [float] is the hardware one, meaningful for an absolute value below 2^63.
    - The [print] statements guarded by [verbosity] have no effect on the
      values computed and are left out. *)

From Stdlib Require Import ZArith Floats Uint63 Lia Ascii String.
From stdpp Require Import base option list sorting gmap strings.

Local Open Scope string_scope.
Local Open Scope Z_scope.

(* Decimal literals such as 0.05 stand for the nearest binary64 value, as in
   Python. *)
#[local] Set Warnings "-inexact-float".

(** ** Exceptions and results *)

Inductive exn : Type :=
  | UnsuccessfulEncodingError
  | TypeError (msg : string)
  | ValueError (msg : string)
  | ZeroDivisionError (msg : string)
  | OverflowError (msg : string)
  | KeyError (key : string)
  | IndexError (msg : string).

Inductive result (A : Type) : Type :=
  | Ok (a : A)
  | Raise (e : exn).

Arguments Ok {A} a.
Arguments Raise {A} e.

#[global] Instance result_ret : MRet result := λ A a, Ok a.

#[global] Instance result_bind : MBind result := λ A B f m,
  match m with
  | Ok a => f a
  | Raise e => Raise e
  end.

#[global] Instance result_fmap : FMap result := λ A B f m,
  match m with
  | Ok a => Ok (f a)
  | Raise e => Raise e
  end.

(** [for x in xs: acc = body(acc, x)], where the body may raise. *)
Fixpoint for_each {A S : Type} (body : S → A → result S) (xs : list A) (acc : S)
  : result S :=
  match xs with
  | [] => Ok acc
  | x :: xs' => acc' ← body acc x; for_each body xs' acc'
  end.

(** [[f(x) for x in xs]], where [f] may raise. *)
Fixpoint collect {A B : Type} (f : A → result B) (xs : list A) : result (list B) :=
  match xs with
  | [] => Ok []
  | x :: xs' => y ← f x; ys ← collect f xs'; Ok (y :: ys)
  end.

(** ** Python values, as far as the type checks of the encoder see them *)

#[local] Set Warnings "-register-all".

Inductive pyval : Type :=
  | PyNone
  | PyBool (b : bool)
  | PyInt (z : Z)
  | PyFloat (f : float)
  | PyStr (s : string)
  | PyTuple (xs : list pyval)
  | PyList (xs : list pyval)
  | PyDict (kvs : list (pyval * pyval)).

(** Truth value testing: [None], [False], zero, and every empty container
    are false. *)
Definition truthy (v : pyval) : bool :=
  match v with
  | PyNone => false
  | PyBool b => b
  | PyInt z => negb (z =? 0)
  | PyFloat f => negb (PrimFloat.eqb f 0%float)
  | PyStr s => negb (String.eqb s "")
  | PyTuple xs | PyList xs => negb (Nat.eqb (length xs) 0)
  | PyDict kvs => negb (Nat.eqb (length kvs) 0)
  end.

(** [a and b]: [a] when [a] is false, else [b]. *)
Definition py_and (a b : pyval) : pyval := if truthy a then b else a.

(** [isinstance(v, list)]. *)
Definition isinstance_list (v : pyval) : bool :=
  match v with
  | PyList _ => true
  | _ => false
  end.

(** [type(v)] as [format] prints it. *)
Definition type_repr (v : pyval) : string :=
  match v with
  | PyNone => "<type 'NoneType'>"
  | PyBool _ => "<type 'bool'>"
  | PyInt _ => "<type 'int'>"
  | PyFloat _ => "<type 'float'>"
  | PyStr _ => "<type 'str'>"
  | PyTuple _ => "<type 'tuple'>"
  | PyList _ => "<type 'list'>"
  | PyDict _ => "<type 'dict'>"
  end.

(** ** Floats *)

(** [float(z)] for an [int]. *)
Definition float_of_int (z : Z) : float :=
  match z with
  | Z0 => 0%float
  | Zpos _ => PrimFloat.of_uint63 (Uint63.of_Z z)
  | Zneg p => PrimFloat.opp (PrimFloat.of_uint63 (Uint63.of_Z (Zpos p)))
  end.

(** [a / b] on floats: a zero divisor raises. *)
Definition float_div (a b : float) : result float :=
  if PrimFloat.eqb b 0%float
  then Raise (ZeroDivisionError "float division by zero")
  else Ok (PrimFloat.div a b).

(** [int(f)]: truncation toward zero. *)
Definition int_of_float (f : float) : result Z :=
  match Prim2SF f with
  | S754_zero _ => Ok 0
  | S754_finite s m e => Ok (cond_Zopp s (Z.shiftl (Zpos m) e))
  | S754_infinity _ => Raise (OverflowError "cannot convert float infinity to integer")
  | S754_nan => Raise (ValueError "cannot convert float NaN to integer")
  end.

(** [len(xs) / float(n)], the sparsity of a bitmap over a grid of [n] bits. *)
Definition sparsity_of {A : Type} (xs : list A) (n : Z) : result float :=
  float_div (float_of_int (Z.of_nat (length xs))) (float_of_int n).

(** ** Sorting *)

(** [sorted(xs)] on integers. *)
Definition sorted (xs : list Z) : list Z := merge_sort Z.le xs.

(** Keeps the first element of every run of equal neighbours: on a sorted
    array, what [numpy.unique] keeps. *)
Fixpoint drop_repeats (xs : list Z) : list Z :=
  match xs with
  | [] => []
  | x :: xs' =>
      match xs' with
      | [] => [x]
      | y :: _ => if x =? y then drop_repeats xs' else x :: drop_repeats xs'
      end
  end.

(** [numpy.union1d(a, b)]: the sorted, unique values of the two arrays. *)
Definition union1d (a b : list Z) : list Z := drop_repeats (sorted (a ++ b)).

(** ** The data of the encoder *)

(** The fingerprint dictionary of the client:
    [{text, sparsity, df, height, width, score, fingerprint: {positions}, pos_types}]. *)
Record Encoding : Type := mkEncoding {
  text : string;
  sparsity : float;
  df : float;
  height : Z;
  width : Z;
  score : float;
  positions : list Z;
  pos_types : list string
}.

(** [encoding["fingerprint"]["positions"] = ps; encoding["width"] = w;
    encoding["height"] = h]. *)
Definition set_scaled (enc : Encoding) (ps : list Z) (w h : Z) : Encoding :=
  {| text := text enc; sparsity := sparsity enc; df := df enc;
     height := h; width := w; score := score enc;
     positions := ps; pos_types := pos_types enc |}.

(** [encoding["sparsity"] = s]. *)
Definition set_sparsity (enc : Encoding) (s : float) : Encoding :=
  {| text := text enc; sparsity := s; df := df enc;
     height := height enc; width := width enc; score := score enc;
     positions := positions enc; pos_types := pos_types enc |}.

(** The [cortipy] client, an external collaborator: each call either returns
    or raises. *)
Record CorticalClient : Type := mkClient {
  getTextBitmap : string → result Encoding;
  getBitmap : string → result Encoding;
  client_tokenize : string → result (list string);
  client_compare : pyval → pyval → result pyval
}.

Inductive EncoderTypes : Type := document | word | generic.

(** The attributes of a [CioEncoder] instance. *)
Record CioEncoder : Type := mkCioEncoder {
  client : CorticalClient;
  retinaScaling : float;
  self_width : Z;
  self_height : Z;
  self_n : Z;
  fingerprintType : EncoderTypes;
  unionSparsity : float;
  verbosity : Z
}.

(** The window dictionaries of [getWindowEncoding]: [{text, sparsity, bitmap}]. *)
Record WindowEncoding : Type := mkWindow {
  win_text : list string;
  win_sparsity : float;
  win_bitmap : list Z
}.

(** ** The program *)

(** [s.split(",")]: the pieces between the commas, the empty ones included. *)
Fixpoint split_comma_from (piece : string) (s : string) : list string :=
  match s with
  | EmptyString => [piece]
  | String c s' =>
      if Ascii.eqb c ","%char
      then piece :: split_comma_from "" s'
      else split_comma_from (piece +:+ String c "") s'
  end.

Definition split_comma (s : string) : list string := split_comma_from "" s.

(** [min(encs, key=lambda x: x["df"])]: the first encoding of least [df]. *)
Definition min_by_df (encs : list Encoding) : result Encoding :=
  match encs with
  | [] => Raise (ValueError "min() arg is an empty sequence")
  | e :: es =>
      Ok (foldl (λ best x, if PrimFloat.ltb (df x) (df best) then x else best) e es)
  end.

(** [counts.update(bitmap)] on a [Counter]: one more occurrence for every
    element of the bitmap. *)
Definition counter_update (counts : gmap Z nat) (bitmap : list Z) : gmap Z nat :=
  foldl (λ c p, <[p := S (default 0%nat (c !! p))]> c) counts bitmap.

(** [floor(f)] for a finite float. *)
Definition floor_of_float (f : float) : option Z :=
  match Prim2SF f with
  | S754_zero _ => Some 0
  | S754_finite s m e => Some (Z.shiftl (cond_Zopp s (Zpos m)) e)
  | _ => None
  end.

(** Modelled from the spec: the order in which [sparseUnion] ranks the
    entries (position, count) of the counter, more occurrences first and,
    among equal counts, the smaller position first. *)
Definition ranks_before (a b : Z * nat) : Prop :=
  (b.2 < a.2)%nat ∨ (a.2 = b.2 ∧ a.1 ≤ b.1).

#[global] Instance ranks_before_dec : RelDecision ranks_before.
Proof. intros a b. unfold ranks_before. apply _. Defined.

(** Modelled from the spec: [LanguageEncoder.sparseUnion], the method of the
    base class that [getUnionEncoding] calls, is not in this file. The positions
    of the counter are ranked by descending frequency, ties by ascending
    position, and the ranking is cut to at most floor(maxSparsity · n)
    positions. A product that is not a finite number has no floor. *)
Definition sparseUnion (self : CioEncoder) (counts : gmap Z nat) : result (list Z) :=
  match floor_of_float (PrimFloat.mul (unionSparsity self) (float_of_int (self_n self))) with
  | None => Raise (ValueError "the sparsity budget is not a finite number")
  | Some cap => Ok (take (Z.to_nat cap) ((merge_sort ranks_before (map_to_list counts)).*1))
  end.

Section Encoder.

(** Collaborators of the encoder that live outside this file:
    [TextPreprocess().tokenize], [LanguageEncoder.scaleEncoding], and the
    width column of cortipy's [RETINA_SIZES] table. *)
Context (tokenize : string → list string)
        (scaleEncoding : list Z → float → result (list Z))
        (RETINA_SIZES : string → option Z).

Definition invalid_scaling : exn :=
  ValueError "Retina can only be scaled by values between 0 and 1.".

Definition _setDimensions (self : CioEncoder) (retina : string) (scalingFactor : float)
  : result CioEncoder :=
  if PrimFloat.ltb scalingFactor 0%float || PrimFloat.ltb 1%float scalingFactor
  then Raise invalid_scaling
  else
    retinaDim ← match RETINA_SIZES retina with
                | Some w => Ok w
                | None => Raise (KeyError retina)
                end;
    w ← int_of_float (PrimFloat.mul (float_of_int retinaDim) scalingFactor);
    h ← int_of_float (PrimFloat.mul (float_of_int retinaDim) scalingFactor);
    Ok {| client := client self; retinaScaling := scalingFactor;
          self_width := w; self_height := h; self_n := w * h;
          fingerprintType := fingerprintType self;
          unionSparsity := unionSparsity self; verbosity := verbosity self |}.

Definition _getWordBitmap (self : CioEncoder) (term : string) : result (list Z) :=
  enc ← getBitmap (client self) term; Ok (positions enc).

Definition getUnionEncoding (self : CioEncoder) (text : string) : result Encoding :=
  let tokens := tokenize text in
  counts ← for_each (λ counts t,
              bitmap ← _getWordBitmap self t; Ok (counter_update counts bitmap))
            tokens ∅;
  positions ← sparseUnion self counts;
  sp ← sparsity_of positions (self_n self);
  Ok {| text := text; sparsity := sp; df := 0%float;
        height := self_height self; width := self_width self;
        score := 0%float; positions := sorted positions; pos_types := [] |}.

(** The inner loop of [getWindowEncoding], [for j in reversed(xrange(i))],
    over the indices [js] still to visit. The state is the window and the
    loop variable [j], which keeps its last value after the loop. *)
Fixpoint window_walk (self : CioEncoder) (bitmaps : list (list Z)) (js : list nat)
    (windowBitmap : list Z) (j : nat) : result (list Z * nat) :=
  match js with
  | [] => Ok (windowBitmap, j)
  | j' :: js' =>
      windowSparsity ← sparsity_of windowBitmap (self_n self);
      next ← match bitmaps !! j' with
             | Some b => Ok b
             | None => Raise (IndexError "list index out of range")
             end;
      nextSparsity ← sparsity_of next (self_n self);
      if PrimFloat.ltb (unionSparsity self) (PrimFloat.add windowSparsity nextSparsity)
      then Ok (windowBitmap, j')
      else window_walk self bitmaps js' (union1d windowBitmap next) j'
  end.

(** [reversed(xrange(i))]. *)
Definition reversed_xrange (i : nat) : list nat := reverse (seq 0 i).

(** [tokens[j:i+1]]. *)
Definition slice {A : Type} (xs : list A) (j stop : nat) : list A :=
  take (stop - j) (drop j xs).

(** One turn of the outer loop: the window of token [i] and, when it is
    dense enough, its dictionary. *)
Definition window_at (self : CioEncoder) (tokens : list string)
    (bitmaps : list (list Z)) (minSparsity : float) (i : nat) (bitmap : list Z)
  : result (option WindowEncoding) :=
  '(windowBitmap, j) ← window_walk self bitmaps (reversed_xrange i) bitmap 0%nat;
  sp ← sparsity_of windowBitmap (self_n self);
  if PrimFloat.ltb minSparsity sp
  then Ok (Some {| win_text := slice tokens j (i + 1);
                   win_sparsity := sp; win_bitmap := windowBitmap |})
  else Ok None.

Fixpoint window_loop (self : CioEncoder) (tokens : list string)
    (bitmaps : list (list Z)) (minSparsity : float)
    (rest : list (list Z)) (i : nat) (windowBitmaps : list WindowEncoding)
  : result (list WindowEncoding) :=
  match rest with
  | [] => Ok windowBitmaps
  | bitmap :: rest' =>
      w ← window_at self tokens bitmaps minSparsity i bitmap;
      window_loop self tokens bitmaps minSparsity rest' (S i)
        (match w with
         | Some d => windowBitmaps ++ [d]
         | None => windowBitmaps
         end)
  end.

Definition getWindowEncoding (self : CioEncoder) (tokens : list string)
    (minSparsity : float) : result (list WindowEncoding) :=
  bitmaps ← collect (_getWordBitmap self) tokens;
  window_loop self tokens bitmaps minSparsity bitmaps 0%nat [].

(** [encoding] is [None] or a fingerprint dictionary; subscripting [None]
    raises. *)
Definition finishEncoding (self : CioEncoder) (encoding : option Encoding)
  : result (option Encoding) :=
  match encoding with
  | None => Raise (TypeError "'NoneType' object has no attribute '__getitem__'")
  | Some enc =>
      enc' ← (if negb (PrimFloat.eqb (retinaScaling self) 1%float)
              then ps ← scaleEncoding (positions enc) (retinaScaling self);
                   Ok (set_scaled enc ps (self_width self) (self_height self))
              else Ok enc);
      sp ← sparsity_of (positions enc') (width enc' * height enc');
      Ok (Some (set_sparsity enc' sp))
  end.

Definition _subEncoding (self : CioEncoder) (text : string) (method : string)
  : result (option Encoding) :=
  let attempt : result (option Encoding) :=
    if String.eqb method "df" then
      parts ← client_tokenize (client self) text;
      let tokens := concat (split_comma <$> parts) in
      encs ← collect (getBitmap (client self)) tokens;
      enc ← min_by_df encs;
      Ok (Some enc)
    else if String.eqb method "keyword" then
      enc ← getUnionEncoding self text; Ok (Some enc)
    else Raise (ValueError "method must be either 'df' or 'keyword'") in
  match attempt with
  | Raise UnsuccessfulEncodingError => Ok None
  | r => r
  end.

(** The strategy that [encode] tries first. *)
Definition primary (self : CioEncoder) (text : string) : result Encoding :=
  match fingerprintType self with
  | document => getTextBitmap (client self) text
  | word => getUnionEncoding self text
  | generic => getBitmap (client self) text
  end.

Definition encode (self : CioEncoder) (text : pyval) : result (option Encoding) :=
  match text with
  | PyStr s =>
      encoding ← match primary self s with
                 | Ok enc => Ok (Some enc)
                 | Raise UnsuccessfulEncodingError => _subEncoding self s "keyword"
                 | Raise e => Raise e
                 end;
      finishEncoding self encoding
  | _ => Raise (TypeError ("Expected a string input but got input of type "
                           +:+ type_repr text +:+ "."))
  end.

Definition compare (self : CioEncoder) (bitmap1 bitmap2 : pyval) : result pyval :=
  if negb (isinstance_list (py_and bitmap1 bitmap2))
  then Raise (TypeError "Comparison bitmaps must be lists.")
  else client_compare (client self) bitmap1 bitmap2.

End Encoder.

(** ** Predicates of the statements *)

(** The interval (0, 1] of scale factors. *)
Definition in_unit_interval (s : float) : bool :=
  PrimFloat.ltb 0%float s && PrimFloat.leb s 1%float.

(** A float that is neither a zero nor a NaN. *)
Definition SF_nonzero (x : spec_float) : bool :=
  match x with
  | S754_finite _ _ _ | S754_infinity _ => true
  | _ => false
  end.

(** The stopping test of the backward walk, on a window [W] and the next
    bitmap [B]: the sum of their two sparsities exceeds the budget. *)
Definition exceeds (self : CioEncoder) (W B : list Z) : bool :=
  PrimFloat.ltb (unionSparsity self)
    (PrimFloat.add
       (PrimFloat.div (float_of_int (Z.of_nat (length W))) (float_of_int (self_n self)))
       (PrimFloat.div (float_of_int (Z.of_nat (length B))) (float_of_int (self_n self)))).

(** [bitmaps[j]], for an index in range. *)
Definition bitmap_at (bitmaps : list (list Z)) (j : nat) : list Z :=
  default [] (bitmaps !! j).

(** The window [W] after the bitmaps at the indices [js] were merged into it,
    in that order. *)
Definition merged (bitmaps : list (list Z)) (js : list nat) (W : list Z) : list Z :=
  foldl (λ W j, union1d W (bitmap_at bitmaps j)) W js.


(** The loop variable [j] after the walk over the indices [js] merged [k]
    of them: the index at which the walk stopped, or the last index (the
    initial [j0] when there was none) when the walk visited them all. *)
Definition stopped_at (js : list nat) (j0 k : nat) : nat :=
  match js !! k with
  | Some j => j
  | None => default j0 (last js)
  end.

(** The [Counter] that [getUnionEncoding] builds from the bitmaps of the
    tokens. *)
Definition count_bits (bitmaps : list (list Z)) : gmap Z nat :=
  foldl counter_update ∅ bitmaps.

(** How often position [p] occurs in a sequence of positions. *)
Definition occurrences (p : Z) (ps : list Z) : nat :=
  length (filter (λ x, x = p) ps).

(** A counter is exact for a sequence of positions when it holds, for each
    position, its number of occurrences, and no entry for the others. *)
Definition counts_exactly (counts : gmap Z nat) (ps : list Z) : Prop :=
  ∀ p, counts !! p = if decide (occurrences p ps = 0%nat) then None
                     else Some (occurrences p ps).

(** ** Collaborators for concrete runs *)

(** cortipy's table of retina widths. *)
Definition cortipy_RETINA_SIZES (retina : string) : option Z :=
  if String.eqb retina "en_synonymous" then Some 128
  else if String.eqb retina "en_associative" then Some 128
  else None.

Fixpoint vocabulary_lookup (vocab : list (string * list Z)) (term : string)
  : option (list Z) :=
  match vocab with
  | [] => None
  | (t, ps) :: vocab' => if String.eqb t term then Some ps else vocabulary_lookup vocab' term
  end.

(** A client that knows the bitmaps of a fixed vocabulary over a [side] x
    [side] retina, and has no encoding for anything else. *)
Definition vocabulary_client (side : Z) (vocab : list (string * list Z)) : CorticalClient :=
  {| getTextBitmap := λ _, Raise UnsuccessfulEncodingError;
     getBitmap := λ term,
       match vocabulary_lookup vocab term with
       | Some ps => Ok {| text := term; sparsity := 0%float; df := 0%float;
                          height := side; width := side; score := 0%float;
                          positions := ps; pos_types := [] |}
       | None => Raise UnsuccessfulEncodingError
       end;
     client_tokenize := λ s, Ok [s];
     client_compare := λ _ _, Ok (PyDict []) |}.

(** An encoder over a [side] x [side] retina, unscaled. *)
Definition vocabulary_encoder (side : Z) (vocab : list (string * list Z))
    (kind : EncoderTypes) (budget : float) : CioEncoder :=
  {| client := vocabulary_client side vocab; retinaScaling := 1%float;
     self_width := side; self_height := side; self_n := side * side;
     fingerprintType := kind; unionSparsity := budget; verbosity := 0 |}.

(** A tokenizer that takes the text as one token, and a rescaling that
    is never reached when the scale is 1. *)
Definition one_token (s : string) : list string := [s].
Definition no_rescaling (ps : list Z) (_ : float) : result (list Z) := Ok ps.

(** The example of three tokens: bitmaps of 2, 3 and 2 bits, pairwise
    disjoint, over a grid of 100 bits, with a budget of 0.05. *)
Definition abc_vocabulary : list (string * list Z) :=
  [("a", [1; 2]); ("b", [10; 11; 12]); ("c", [20; 21])].

Definition abc_encoder : CioEncoder :=
  vocabulary_encoder 10 abc_vocabulary word 0.05%float.

(** A budget of three bits over 100, and bitmaps that share positions. *)
Definition tight_encoder : CioEncoder :=
  vocabulary_encoder 10 [("x", [1; 2; 3]); ("y", [2; 3; 4]); ("z", [3; 9])]
    word 0.03%float.

(** A tokenizer that splits the text at its commas. *)
Definition comma_tokens (s : string) : list string := split_comma s.

Definition abc_bitmaps : list (list Z) := [[1; 2]; [10; 11; 12]; [20; 21]].
Definition b_bitmap : list Z := [10; 11; 12].
Definition c_bitmap : list Z := [20; 21].

(** ** The rest of the class *)

Definition getWidth (self : CioEncoder) : Z := self_n self.

Definition getDimensions (self : CioEncoder) : Z * Z :=
  (self_width self, self_height self).

(** An index of a one-dimensional numpy array of [len] cells: a negative
    index counts from the end, and an index outside [-len, len) raises. *)
Definition numpy_index (len : nat) (p : Z) : result nat :=
  if (0 <=? p) && (p <? Z.of_nat len) then Ok (Z.to_nat p)
  else if (- Z.of_nat len <=? p) && (p <? 0) then Ok (Z.to_nat (p + Z.of_nat len))
  else Raise (IndexError "index out of bounds").

(** [output[ps] = v] with a list of indices: every index is checked, then
    every cell named is written. *)
Definition numpy_put (output : list Z) (ps : list Z) (v : Z) : result (list Z) :=
  cells ← collect (numpy_index (length output)) ps;
  Ok (foldl (λ out i, <[i := v]> out) output cells).

Section Client.

(** As in [Section Encoder], and one more method of the client,
    [createClassification]. *)
Context (tokenize : string → list string)
        (scaleEncoding : list Z → float → result (list Z))
        (createClassification : string → pyval → pyval → result pyval).

(** The value is the array [output] after the call, when the call returns. *)
Definition encodeIntoArray (self : CioEncoder) (inputText : pyval) (output : list Z)
  : result (list Z) :=
  encoding ← encode tokenize scaleEncoding self inputText;
  match encoding with
  | None => Raise (TypeError "'NoneType' object has no attribute '__getitem__'")
  | Some enc => numpy_put (replicate (length output) 0) (positions enc) 1
  end.

(** [negatives] is [PyNone] when the argument is left out. *)
Definition createCategory (self : CioEncoder) (label : string)
    (positives negatives : pyval) : result pyval :=
  let negatives := match negatives with
                   | PyNone => PyList []
                   | _ => negatives
                   end in
  if negb (isinstance_list (py_and positives negatives))
  then Raise (TypeError "Input bitmaps must be lists.")
  else createClassification label positives negatives.

End Client.

(** What a call of the constructor comes to: an instance, with the key and
    the description it keeps beside the attributes of [CioEncoder]; the
    [OSError] of the constructor; or an exception raised on the way. *)
Inductive construction : Type :=
  | Constructed (self : CioEncoder) (apiKey : string) (description : string * Z)
  | OSError (msg : string)
  | InitRaised (e : exn).

Section Construction.

(** The surroundings of the constructor: [os.environ], the constructor of
    the cortipy client, the directory [CioCache] beside the module, and
    cortipy's table. The base class keeps [unionSparsity]. *)
Context (environ : gmap string string)
        (new_client : string → string → string → CorticalClient)
        (default_cacheDir : string)
        (RETINA_SIZES : string → option Z).

Definition __init__ (retina : string) (retinaScaling : float)
    (cacheDir : option string) (verbosity : Z) (fingerprintType : EncoderTypes)
    (unionSparsity : float) (apiKey : option string) : construction :=
  if bool_decide (apiKey = None)
     && bool_decide (environ !! "CORTICAL_API_KEY" = None)
  then OSError "Missing API key."
  else
    let cacheDir := default default_cacheDir cacheDir in
    let from_environ := match environ !! "CORTICAL_API_KEY" with
                        | Some k => Ok k
                        | None => Raise (KeyError "CORTICAL_API_KEY")
                        end in
    match (match apiKey with
           | Some k => if String.eqb k "" then from_environ else Ok k
           | None => from_environ
           end) with
    | Raise e => InitRaised e
    | Ok key =>
        match _setDimensions RETINA_SIZES
                {| client := new_client key retina cacheDir;
                   retinaScaling := retinaScaling;
                   self_width := 0; self_height := 0; self_n := 0;
                   fingerprintType := fingerprintType;
                   unionSparsity := unionSparsity; verbosity := verbosity |}
                retina retinaScaling with
        | Raise e => InitRaised e
        | Ok self => Constructed self key ("Cio Encoder", 0)
        end
    end.

End Construction.

(** An encoder that halves the 128 x 128 retina, and a rescaling that
    halves every position. *)
Definition half_encoder : CioEncoder :=
  {| client := vocabulary_client 128 [("cat", [3; 5; 8])];
     retinaScaling := 0.5%float;
     self_width := 64; self_height := 64; self_n := 64 * 64;
     fingerprintType := generic; unionSparsity := 0.2%float; verbosity := 0 |}.

Definition halve_positions (ps : list Z) (_ : float) : result (list Z) :=
  Ok ((λ p, p / 2) <$> ps).

(** The three windows of the three tokens. *)
Definition abc_tokens : list string := ["a"; "b"; "c"].

Definition c_window : WindowEncoding :=
  {| win_text := ["a"; "b"; "c"];
     win_sparsity := PrimFloat.div (float_of_int 5) (float_of_int 100);
     win_bitmap := [10; 11; 12; 20; 21] |}.

Definition abc_windows : list WindowEncoding :=
  [ {| win_text := ["a"];
       win_sparsity := PrimFloat.div (float_of_int 2) (float_of_int 100);
       win_bitmap := [1; 2] |};
    {| win_text := ["a"; "b"];
       win_sparsity := PrimFloat.div (float_of_int 5) (float_of_int 100);
       win_bitmap := [1; 2; 10; 11; 12] |};
    c_window ].

(** A float whose sign, if it has one, is [sx]. *)
Definition SF_signed (sx : bool) (x : spec_float) : Prop :=
  match x with
  | S754_zero s | S754_infinity s | S754_finite s _ _ => s = sx
  | S754_nan => True
  end.

(** An environment that holds a key, and a constructor of clients that
    knows no word. *)
Definition key_environ : gmap string string :=
  {[ "CORTICAL_API_KEY" := "key-of-the-environment" ]}.

Definition empty_client (apiKey retina cacheDir : string) : CorticalClient :=
  vocabulary_client 128 [].

Definition echo_classification (label : string) (positives negatives : pyval)
  : result pyval :=
  Ok (PyTuple [PyStr label; positives; negatives]).

(** * Properties *)

(** ** The conversion of an integer to a float is zero only at zero *)

(** One step of a computation in [result]: the bind of a value that is
    known. *)
Ltac run_bind := cbn [mbind result_bind].
Tactic Notation "run_bind" "in" hyp(H) := cbn [mbind result_bind] in H.

Lemma digits2_pos_size p : digits2_pos p = Pos.size p.
Proof. induction p; simpl; congruence. Qed.

Lemma iter_pos_nat {A} (f : A → A) k x :
  SpecFloat.iter_pos f k x = Nat.iter (Pos.to_nat k) f x.
Proof.
  revert x. induction k as [k IH|k IH|]; intros x; cbn [SpecFloat.iter_pos].
  - rewrite !IH, Pos2Nat.inj_xI, <- Nat.iter_add, <- Nat.iter_succ_r.
    f_equal. lia.
  - rewrite !IH, Pos2Nat.inj_xO, <- Nat.iter_add. f_equal. lia.
  - reflexivity.
Qed.

Lemma shr_1_m mrs : 0 ≤ shr_m mrs → shr_m (shr_1 mrs) = Z.div2 (shr_m mrs).
Proof. destruct mrs as [[|[p|p|]|p] r s]; simpl; intros; try reflexivity; lia. Qed.

Lemma shr_iter_m n mrs :
  0 ≤ shr_m mrs →
  shr_m (Nat.iter n shr_1 mrs) = Z.shiftr (shr_m mrs) (Z.of_nat n).
Proof.
  intros H. induction n as [|n IH].
  - reflexivity.
  - rewrite Nat2Z.inj_succ, Nat.iter_succ, shr_1_m.
    + rewrite IH, Z.div2_spec, Z.shiftr_shiftr by lia. f_equal; lia.
    + rewrite IH. apply Z.shiftr_nonneg. exact H.
Qed.

(** The shift that brings a mantissa into the format never empties it, as
    long as the exponent is not below the least one. *)
Lemma shr_fexp_pos m e l :
  0 < m → SpecFloat.emin prec emax ≤ e →
  0 < shr_m (shr_fexp prec emax m e l).1
  ∧ SpecFloat.emin prec emax ≤ (shr_fexp prec emax m e l).2.
Proof.
  intros Hm He. unfold shr_fexp, shr.
  destruct m as [|p|p]; try lia.
  assert (Hr : shr_m (shr_record_of_loc (Z.pos p) l) = Z.pos p)
    by (destruct l as [|[]]; reflexivity).
  cbn [Zdigits2]. rewrite digits2_pos_size.
  pose proof (Pos.size_le p) as Hsz.
  destruct (fexp prec emax (Z.pos (Pos.size p) + e) - e) as [|k|k] eqn:Hk;
    cbn [fst snd].
  - rewrite Hr. lia.
  - rewrite iter_pos_nat, shr_iter_m by (rewrite Hr; lia).
    rewrite Hr, positive_nat_Z. split; [|lia].
    unfold fexp in Hk. rewrite Z.shiftr_div_pow2 by lia.
    assert (Z.pos k ≤ Z.pos (Pos.size p) - 1)
      by (unfold SpecFloat.emin, prec, emax in *; lia).
    apply Z.div_str_pos. split; [apply Z.pow_pos_nonneg; lia|].
    apply Z.le_trans with (2 ^ (Z.pos (Pos.size p) - 1)).
    + apply Z.pow_le_mono_r; lia.
    + assert (2 ^ Z.pos (Pos.size p) = 2 * 2 ^ (Z.pos (Pos.size p) - 1)).
      { rewrite <- Z.pow_succ_r by lia. f_equal. lia. }
      assert (2 ^ Z.pos (Pos.size p) ≤ 2 * Z.pos p).
      { rewrite <- Pos2Z.inj_pow. change (Z.pos (2 ^ Pos.size p) ≤ Z.pos (p~0)). lia. }
      lia.
  - rewrite Hr. lia.
Qed.

Lemma round_nearest_even_pos m l : 0 < m → 0 < round_nearest_even m l.
Proof.
  intros H. unfold round_nearest_even.
  destruct l as [|[]]; try destruct (Z.even m); lia.
Qed.

Lemma binary_round_aux_nonzero s m e l :
  0 < m → SpecFloat.emin prec emax ≤ e →
  SF_nonzero (binary_round_aux prec emax s m e l) = true.
Proof.
  intros Hm He. unfold binary_round_aux.
  destruct (shr_fexp_pos m e l Hm He) as [H1 H2].
  destruct (shr_fexp prec emax m e l) as [mrs' e']. cbn [fst snd] in H1, H2.
  pose proof (round_nearest_even_pos _ (loc_of_shr_record mrs') H1) as H3.
  destruct (shr_fexp_pos _ e' loc_Exact H3 H2) as [H4 _].
  destruct (shr_fexp prec emax _ e' loc_Exact) as [mrs'' e'']. cbn [fst] in H4.
  destruct (shr_m mrs'') as [|q|q]; try lia.
  destruct (e'' <=? emax - prec); reflexivity.
Qed.

Lemma binary_normalize_nonzero p :
  SF_nonzero (binary_normalize prec emax (Z.pos p) 0 false) = true.
Proof.
  cbn [binary_normalize]. unfold binary_round, shl_align.
  set (ex' := fexp prec emax (Z.pos (digits2_pos p) + 0)).
  assert (SpecFloat.emin prec emax ≤ ex') by (unfold ex', fexp; lia).
  assert (SpecFloat.emin prec emax ≤ 0) by (vm_compute; discriminate).
  destruct (ex' - 0); apply binary_round_aux_nonzero; lia.
Qed.

Lemma of_uint63_nonzero p :
  Z.pos p < 2 ^ 63 →
  SF_nonzero (Prim2SF (PrimFloat.of_uint63 (Uint63.of_Z (Z.pos p)))) = true.
Proof.
  intros Hz. rewrite FloatAxioms.of_uint63_spec.
  rewrite Uint63.of_Z_spec, Z.mod_small by (change wB with (2 ^ 63); lia).
  apply binary_normalize_nonzero.
Qed.

Lemma SF_nonzero_eqb x : SF_nonzero x = true → SFeqb x (S754_zero false) = false.
Proof. destruct x as [|[]| |[] ? ?]; try discriminate; reflexivity. Qed.

(** [float(z) == 0.0] only for [z = 0], over the machine integers. *)
Lemma float_of_int_nonzero z :
  z ≠ 0 → Z.abs z < 2 ^ 63 → PrimFloat.eqb (float_of_int z) 0%float = false.
Proof.
  intros Hz Hr. rewrite FloatAxioms.eqb_spec.
  change (Prim2SF 0%float) with (S754_zero false).
  apply SF_nonzero_eqb.
  destruct z as [|p|p]; [done| |]; cbn [float_of_int].
  - apply of_uint63_nonzero. lia.
  - rewrite FloatAxioms.opp_spec.
    pose proof (of_uint63_nonzero p ltac:(lia)) as H.
    destruct (Prim2SF _); try discriminate H; reflexivity.
Qed.

Lemma float_div_nonzero a z :
  z ≠ 0 → Z.abs z < 2 ^ 63 →
  float_div a (float_of_int z) = Ok (PrimFloat.div a (float_of_int z)).
Proof. intros Hz Hr. unfold float_div. by rewrite float_of_int_nonzero. Qed.

Lemma sparsity_of_nonzero {A} (xs : list A) n :
  n ≠ 0 → Z.abs n < 2 ^ 63 →
  sparsity_of xs n
  = Ok (PrimFloat.div (float_of_int (Z.of_nat (length xs))) (float_of_int n)).
Proof. apply float_div_nonzero. Qed.

Lemma sparsity_of_zero {A} (xs : list A) :
  sparsity_of xs 0 = Raise (ZeroDivisionError "float division by zero").
Proof. reflexivity. Qed.

(** ** Configuration of the dimensions *)

(** [int] never raises the error of the scaling guard. *)
Lemma int_of_float_not_invalid f : int_of_float f ≠ Raise invalid_scaling.
Proof. unfold int_of_float. by destruct (Prim2SF f). Qed.

Lemma setDimensions_guard RETINA_SIZES self retina s :
  _setDimensions RETINA_SIZES self retina s = Raise invalid_scaling
  ↔ PrimFloat.ltb s 0%float = true ∨ PrimFloat.ltb 1%float s = true.
Proof.
  unfold _setDimensions. split.
  - destruct (PrimFloat.ltb s 0%float) eqn:H0; [by left|].
    destruct (PrimFloat.ltb 1%float s) eqn:H1; [by right|].
    cbn [orb]. intros H. exfalso.
    destruct (RETINA_SIZES retina) as [dim|]; [|discriminate H].
    run_bind in H.
    pose proof (int_of_float_not_invalid
                  (PrimFloat.mul (float_of_int dim) s)) as Hi.
    destruct (int_of_float _) as [w|e]; [discriminate H|].
    injection H as ->. by apply Hi.
  - intros [-> | ->]; [done|]. by rewrite orb_true_r.
Qed.

(** C5, as the code has it. [_setDimensions] raises its invalid-configuration
    error exactly when the scale factor is below 0 or above 1: the guard
    accepts the closed interval from 0 to 1, and so the scale factor 0. *)
Theorem setDimensions_invalid_iff RETINA_SIZES self retina s :
  (_setDimensions RETINA_SIZES self retina s = Raise invalid_scaling
   ↔ PrimFloat.ltb s 0%float = true ∨ PrimFloat.ltb 1%float s = true)
  ∧ _setDimensions RETINA_SIZES self retina 0%float ≠ Raise invalid_scaling.
Proof.
  split; [apply setDimensions_guard|].
  intros H. apply setDimensions_guard in H as [H|H]; discriminate H.
Qed.

(** C5 fails at 0: the scale factor 0 is outside (0, 1], and the dimensions
    are configured all the same, to an empty grid. *)
Lemma setDimensions_accepts_zero :
  in_unit_interval 0%float = false
  ∧ _setDimensions cortipy_RETINA_SIZES
      (vocabulary_encoder 128 [] document 0.2%float) "en_synonymous" 0%float
    = Ok {| client := vocabulary_client 128 []; retinaScaling := 0%float;
            self_width := 0; self_height := 0; self_n := 0;
            fingerprintType := document; unionSparsity := 0.2%float;
            verbosity := 0 |}.
Proof. split; reflexivity. Qed.

(** ** The type check of [compare] *)

(** C10. [compare] raises its own [TypeError] exactly when the value of
    [bitmap1 and bitmap2] is not a list, and hands the two arguments to the
    client otherwise. So an empty list in the first place lets any second
    argument through, and so does a non-empty tuple before a list. *)
Theorem compare_checks_selected_value self bitmap1 bitmap2 :
  compare self bitmap1 bitmap2
  = (if isinstance_list (py_and bitmap1 bitmap2)
     then client_compare (client self) bitmap1 bitmap2
     else Raise (TypeError "Comparison bitmaps must be lists."))
  ∧ py_and bitmap1 bitmap2 = (if truthy bitmap1 then bitmap2 else bitmap1)
  ∧ compare self (PyList []) bitmap2 = client_compare (client self) (PyList []) bitmap2
  ∧ (let t := PyTuple [PyInt 1; PyInt 2] in
     let l := PyList [PyInt 1] in
     isinstance_list t = false ∧ truthy t = true ∧ isinstance_list l = true
     ∧ compare self t l = client_compare (client self) t l).
Proof.
  repeat split. unfold compare.
  by destruct (isinstance_list (py_and bitmap1 bitmap2)).
Qed.

(** C6, at the failing input. A tuple in the first place and a list in the
    second pass the check of [compare], and so do an empty list and a
    string: the call reaches the client. *)
Theorem compare_misses_non_list :
  let self := vocabulary_encoder 128 [] document 0.2%float in
  isinstance_list (PyTuple [PyInt 1; PyInt 2]) = false
  ∧ compare self (PyTuple [PyInt 1; PyInt 2]) (PyList [PyInt 1]) = Ok (PyDict [])
  ∧ isinstance_list (PyStr "abc") = false
  ∧ compare self (PyList []) (PyStr "abc") = Ok (PyDict []).
Proof. repeat split. Qed.

(** ** [encode] when no encoding is available *)

(** [finishEncoding] subscripts its argument before anything else. *)
Lemma finishEncoding_None scaleEncoding self :
  finishEncoding scaleEncoding self None
  = Raise (TypeError "'NoneType' object has no attribute '__getitem__'").
Proof. reflexivity. Qed.

(** C1, on the code. When the primary strategy and the token-union
    substitute both raise [UnsuccessfulEncodingError], [_subEncoding] yields
    [None] and [encode] passes it to [finishEncoding], which raises a
    [TypeError]: no absent encoding reaches the caller. *)
Theorem encode_absent_raises tokenize scaleEncoding self text :
  primary tokenize self text = Raise UnsuccessfulEncodingError →
  getUnionEncoding tokenize self text = Raise UnsuccessfulEncodingError →
  _subEncoding tokenize self text "keyword" = Ok None
  ∧ encode tokenize scaleEncoding self (PyStr text)
    = Raise (TypeError "'NoneType' object has no attribute '__getitem__'").
Proof.
  intros Hp Hu.
  assert (Hs : _subEncoding tokenize self text "keyword" = Ok None).
  { unfold _subEncoding. cbn [String.eqb Ascii.eqb Bool.eqb]. by rewrite Hu. }
  split; [done|]. unfold encode. by rewrite Hp, Hs.
Qed.

(** An instance: a client with an empty vocabulary has no encoding for
    the text, nor for its one token. *)
Lemma encode_absent_raises_witness :
  let self := vocabulary_encoder 128 [] document 0.2%float in
  _subEncoding one_token self "zzz" "keyword" = Ok None
  ∧ encode one_token no_rescaling self (PyStr "zzz")
    = Raise (TypeError "'NoneType' object has no attribute '__getitem__'").
Proof.
  apply (encode_absent_raises one_token no_rescaling
           (vocabulary_encoder 128 [] document 0.2%float) "zzz");
    reflexivity.
Defined.

(** ** [finishEncoding] without rescaling *)

(** C7. With a scale factor of 1 and a grid of non-zero area, [finishEncoding]
    returns the record it was given with one field changed: the sparsity,
    recomputed as |positions| / (width * height). *)
Theorem finishEncoding_unscaled scaleEncoding self enc :
  PrimFloat.eqb (retinaScaling self) 1%float = true →
  width enc * height enc ≠ 0 →
  Z.abs (width enc * height enc) < 2 ^ 63 →
  ∃ enc',
    finishEncoding scaleEncoding self (Some enc) = Ok (Some enc')
    ∧ positions enc' = positions enc
    ∧ text enc' = text enc ∧ df enc' = df enc ∧ score enc' = score enc
    ∧ width enc' = width enc ∧ height enc' = height enc
    ∧ pos_types enc' = pos_types enc
    ∧ sparsity enc'
      = PrimFloat.div (float_of_int (Z.of_nat (length (positions enc))))
                      (float_of_int (width enc * height enc)).
Proof.
  intros Hs Hz Hr.
  eexists. split.
  - unfold finishEncoding. rewrite Hs. cbn [negb]. run_bind.
    rewrite sparsity_of_nonzero by done. reflexivity.
  - done.
Qed.

(** An instance: three positions over the 128 x 128 retina. *)
Lemma finishEncoding_unscaled_witness :
  ∃ enc',
    finishEncoding no_rescaling (vocabulary_encoder 128 [] document 0.2%float)
      (Some (mkEncoding "cat" 0%float 0.5%float 128 128 1%float [3; 5; 8] []))
    = Ok (Some enc')
    ∧ positions enc' = [3; 5; 8]
    ∧ text enc' = "cat" ∧ df enc' = 0.5%float ∧ score enc' = 1%float
    ∧ width enc' = 128 ∧ height enc' = 128
    ∧ pos_types enc' = []
    ∧ sparsity enc'
      = PrimFloat.div (float_of_int (Z.of_nat 3)) (float_of_int (128 * 128)).
Proof.
  apply (finishEncoding_unscaled no_rescaling
           (vocabulary_encoder 128 [] document 0.2%float)
           (mkEncoding "cat" 0%float 0.5%float 128 128 1%float [3; 5; 8] []));
    [reflexivity | discriminate | reflexivity].
Defined.

(** On a grid of area zero the last step divides by zero. *)
Lemma finishEncoding_empty_grid scaleEncoding self enc :
  PrimFloat.eqb (retinaScaling self) 1%float = true →
  width enc * height enc = 0 →
  finishEncoding scaleEncoding self (Some enc)
  = Raise (ZeroDivisionError "float division by zero").
Proof.
  intros Hs Hz. unfold finishEncoding. rewrite Hs. cbn [negb]. run_bind.
  by rewrite Hz.
Qed.

(** ** The backward window *)

Lemma reversed_xrange_S i : reversed_xrange (S i) = i :: reversed_xrange i.
Proof. unfold reversed_xrange. by rewrite seq_S, reverse_app. Qed.

(** The first turn of the outer loop is the one of token 0, on the first
    bitmap. *)
Lemma getWindowEncoding_first_turn self t ts b bs minSparsity :
  collect (_getWordBitmap self) (t :: ts) = Ok (b :: bs) →
  getWindowEncoding self (t :: ts) minSparsity
  = (w ← window_at self (t :: ts) (b :: bs) minSparsity 0 b;
     window_loop self (t :: ts) (b :: bs) minSparsity bs 1
       (match w with
        | Some d => [d]
        | None => []
        end)).
Proof. intros Hb. unfold getWindowEncoding. rewrite Hb. reflexivity. Qed.

(** The walk for token 0 has no index to visit: it returns the bitmap it
    was given, and the turn of the outer loop for index 0 makes a dictionary
    of that bitmap and the one token, when it is dense enough to be kept. *)
Lemma window_of_first_token self tokens bitmaps minSparsity bitmap :
  window_walk self bitmaps (reversed_xrange 0) bitmap 0%nat = Ok (bitmap, 0%nat)
  ∧ window_at self tokens bitmaps minSparsity 0 bitmap
    = (sp ← sparsity_of bitmap (self_n self);
       if PrimFloat.ltb minSparsity sp
       then Ok (Some {| win_text := take 1 tokens; win_sparsity := sp;
                        win_bitmap := bitmap |})
       else Ok None).
Proof.
  split; [reflexivity|].
  unfold window_at, slice. cbn. by rewrite drop_0.
Qed.

(** *** [numpy.union1d] *)

Lemma elem_of_drop_repeats x xs : x ∈ drop_repeats xs ↔ x ∈ xs.
Proof.
  induction xs as [|a [|b xs'] IH]; [done..|].
  change (drop_repeats (a :: b :: xs'))
    with (if a =? b then drop_repeats (b :: xs') else a :: drop_repeats (b :: xs')).
  destruct (Z.eqb_spec a b) as [->|Hne].
  - rewrite IH, !elem_of_cons. tauto.
  - rewrite !elem_of_cons, IH, !elem_of_cons. tauto.
Qed.

Lemma drop_repeats_strictly_sorted xs :
  StronglySorted Z.le xs → StronglySorted Z.lt (drop_repeats xs).
Proof.
  induction 1 as [|a xs Hs IH Hall]; [constructor|].
  destruct xs as [|b xs']; [repeat constructor|].
  change (drop_repeats (a :: b :: xs'))
    with (if a =? b then drop_repeats (b :: xs') else a :: drop_repeats (b :: xs')).
  destruct (Z.eqb_spec a b) as [->|Hne]; [done|].
  constructor; [done|].
  apply Forall_forall. intros y Hy.
  apply (proj1 (elem_of_drop_repeats _ _)) in Hy.
  apply StronglySorted_inv in Hs as [_ Hb].
  apply Forall_cons in Hall as [Hab _].
  apply elem_of_cons in Hy as [->|Hy]; [lia|].
  rewrite Forall_forall in Hb. specialize (Hb y Hy). lia.
Qed.

Lemma strictly_sorted_NoDup xs : StronglySorted Z.lt xs → NoDup xs.
Proof.
  induction 1 as [|a xs Hs IH Hall]; constructor; [|done].
  intros Hin. rewrite Forall_forall in Hall. specialize (Hall a Hin). lia.
Qed.

Lemma sorted_strongly xs : StronglySorted Z.le (sorted xs).
Proof. unfold sorted. apply StronglySorted_merge_sort; apply _. Qed.

Lemma elem_of_sorted x xs : x ∈ sorted xs ↔ x ∈ xs.
Proof. unfold sorted. by rewrite merge_sort_Permutation. Qed.

Lemma length_sorted xs : length (sorted xs) = length xs.
Proof. unfold sorted. by rewrite merge_sort_Permutation. Qed.

Lemma elem_of_union1d x a b : x ∈ union1d a b ↔ x ∈ a ∨ x ∈ b.
Proof. unfold union1d. by rewrite elem_of_drop_repeats, elem_of_sorted, elem_of_app. Qed.

Lemma union1d_strictly_sorted a b : StronglySorted Z.lt (union1d a b).
Proof. apply drop_repeats_strictly_sorted, sorted_strongly. Qed.

Lemma union1d_NoDup a b : NoDup (union1d a b).
Proof. apply strictly_sorted_NoDup, union1d_strictly_sorted. Qed.

(** A window that lists a position twice is not a set: [union1d] then
    collapses the repetition. *)
Example union1d_collapses_repeats : union1d [7; 7] [] = [7].
Proof. reflexivity. Qed.

Lemma union1d_length_ge W B : NoDup W → (length W ≤ length (union1d W B))%nat.
Proof.
  intros HW. apply submseteq_length, NoDup_submseteq; [done|].
  intros x Hx. apply elem_of_union1d. by left.
Qed.

(** The window never gets smaller along the walk. *)
Lemma window_walk_length_ge self bitmaps js W j0 W' j :
  NoDup W →
  window_walk self bitmaps js W j0 = Ok (W', j) →
  (length W ≤ length W')%nat.
Proof.
  revert W j0. induction js as [|j' js IH]; intros W j0 HW Hwalk; cbn in Hwalk.
  - by injection Hwalk as -> _.
  - destruct (sparsity_of W (self_n self)) as [ws|]; [|discriminate].
    destruct (bitmaps !! j') as [next|]; [|discriminate].
    cbn in Hwalk.
    destruct (sparsity_of next (self_n self)) as [ns|]; [|discriminate].
    cbn in Hwalk.
    destruct (PrimFloat.ltb _ _).
    + by injection Hwalk as -> _.
    + apply IH in Hwalk; [|apply union1d_NoDup].
      pose proof (union1d_length_ge W next HW). lia.
Qed.

(** C9. Merging a bitmap into a window never removes a position: the union
    has at least as many positions as the window had, it holds every one of
    them, and so the window that the walk returns is at least as large as the
    bitmap it started from. *)
Theorem merging_never_shrinks self bitmaps js j0 W B :
  NoDup W →
  (length W ≤ length (union1d W B))%nat
  ∧ (∀ x, x ∈ W → x ∈ union1d W B)
  ∧ (∀ W' j, window_walk self bitmaps js W j0 = Ok (W', j) →
             (length W ≤ length W')%nat).
Proof.
  intros HW. split; [by apply union1d_length_ge|]. split.
  - intros x Hx. apply elem_of_union1d. by left.
  - intros W' j. by apply window_walk_length_ge.
Qed.

(** *** The walk, step by step *)

Lemma stopped_at_cons j' js j0 k :
  stopped_at (j' :: js) j0 (S k) = stopped_at js j' k.
Proof.
  unfold stopped_at. cbn [lookup list_lookup].
  destruct (js !! k); [done|]. rewrite last_cons. by destruct (last js).
Qed.

(** The walk over any list of valid indices merges a prefix of it: every
    merged bitmap passed the test against the window of its moment, and the
    first bitmap that fails it stops the walk, unmerged. *)
Lemma window_walk_trace self bitmaps js W j0 :
  self_n self ≠ 0 → Z.abs (self_n self) < 2 ^ 63 →
  Forall (λ j, j < length bitmaps)%nat js →
  ∃ k, (k ≤ length js)%nat
    ∧ window_walk self bitmaps js W j0
      = Ok (merged bitmaps (take k js) W, stopped_at js j0 k)
    ∧ (∀ m j, (m < k)%nat → js !! m = Some j →
         exceeds self (merged bitmaps (take m js) W) (bitmap_at bitmaps j) = false)
    ∧ (∀ j, js !! k = Some j →
         exceeds self (merged bitmaps (take k js) W) (bitmap_at bitmaps j) = true).
Proof.
  intros Hn Hr Hjs. revert W j0.
  induction js as [|j' js IH]; intros W j0.
  - exists 0%nat. repeat split; [done| |done]. intros m j Hm. lia.
  - apply Forall_cons in Hjs as [Hj' Hjs].
    destruct (lookup_lt_is_Some_2 bitmaps j' Hj') as [next Hnext].
    assert (Hat : bitmap_at bitmaps j' = next) by (unfold bitmap_at; by rewrite Hnext).
    cbn [window_walk]. rewrite sparsity_of_nonzero, Hnext by done.
    run_bind. rewrite sparsity_of_nonzero by done.
    run_bind.
    change (PrimFloat.ltb _ _) with (exceeds self W next).
    destruct (exceeds self W next) eqn:Htest.
    + exists 0%nat. repeat split.
      * cbn. lia.
      * intros m j Hm. lia.
      * intros j [= <-]. by rewrite Hat.
    + destruct (IH Hjs (union1d W next) j') as (k & Hk & Hwalk & Hbefore & Hstop).
      exists (S k). repeat split.
      * cbn. lia.
      * rewrite Hwalk, stopped_at_cons. cbn [take merged foldl].
        by rewrite Hat.
      * intros [|m] j Hm Hj.
        -- injection Hj as <-. by rewrite Hat.
        -- cbn [take merged foldl]. rewrite Hat. apply Hbefore; [lia|done].
      * intros j Hj. cbn [take merged foldl]. rewrite Hat. by apply Hstop.
Qed.

Lemma length_reversed_xrange i : length (reversed_xrange i) = i.
Proof. unfold reversed_xrange. by rewrite length_reverse, length_seq. Qed.

Lemma lookup_reversed_xrange i m :
  (m < i)%nat → reversed_xrange i !! m = Some (i - 1 - m)%nat.
Proof.
  revert m. induction i as [|i IH]; intros m Hm; [lia|].
  rewrite reversed_xrange_S. destruct m as [|m]; cbn.
  - f_equal. lia.
  - rewrite IH by lia. f_equal. lia.
Qed.


Lemma stopped_at_reversed_xrange i k :
  (k ≤ i)%nat →
  stopped_at (reversed_xrange i) 0 k = if decide (k = i) then 0%nat else (i - 1 - k)%nat.
Proof.
  intros Hk. unfold stopped_at. case_decide as Hki.
  - subst k. rewrite (proj2 (lookup_ge_None _ _)) by (rewrite length_reversed_xrange; lia).
    destruct i as [|i]; [done|].
    unfold reversed_xrange. by rewrite last_reverse.
  - by rewrite lookup_reversed_xrange by lia.
Qed.



(** An instance: the bitmap of the third token, merged with the one of the
    second. *)
Lemma merging_never_shrinks_witness :
  (length c_bitmap ≤ length (union1d c_bitmap b_bitmap))%nat
  ∧ (∀ x, x ∈ c_bitmap → x ∈ union1d c_bitmap b_bitmap)
  ∧ (∀ W' j,
       window_walk abc_encoder abc_bitmaps
         (reversed_xrange 2) c_bitmap 0%nat = Ok (W', j) →
       (length c_bitmap ≤ length W')%nat).
Proof.
  apply (merging_never_shrinks abc_encoder abc_bitmaps
           (reversed_xrange 2) 0%nat c_bitmap b_bitmap).
  apply NoDup_cons. split; [|apply NoDup_singleton].
  intros H. apply list_elem_of_singleton in H. discriminate H.
Defined.

(** C2, at the failing input. For the third of the three tokens the walk
    merges the bitmap of "b" and stops at "a", whose two bits stay out of the
    window; yet the loop variable is left on the index of "a", and the text of
    the window, [tokens[j:i+1]], spans all three tokens. *)
Theorem window_text_spans_excluded_token :
  window_walk abc_encoder abc_bitmaps
    (reversed_xrange 2) c_bitmap 0%nat
  = Ok ([10; 11; 12; 20; 21], 0%nat)
  ∧ exceeds abc_encoder [10; 11; 12; 20; 21] [1; 2] = true
  ∧ ∃ s0 s1 s2,
      getWindowEncoding abc_encoder ["a"; "b"; "c"] 0%float
      = Ok [ {| win_text := ["a"]; win_sparsity := s0; win_bitmap := [1; 2] |};
             {| win_text := ["a"; "b"]; win_sparsity := s1;
                win_bitmap := [1; 2; 10; 11; 12] |};
             {| win_text := ["a"; "b"; "c"]; win_sparsity := s2;
                win_bitmap := [10; 11; 12; 20; 21] |} ].
Proof.
  split; [by vm_compute|]. split; [by vm_compute|].
  do 3 eexists. vm_compute. reflexivity.
Qed.

(** ** The union of the token bitmaps *)

#[local] Instance ranks_before_total : Total ranks_before.
Proof. intros [p c] [q d]. unfold ranks_before. cbn. lia. Qed.

#[local] Instance ranks_before_trans : Transitive ranks_before.
Proof. intros [p c] [q d] [r e]. unfold ranks_before. cbn. lia. Qed.

(** *** The counter holds the number of occurrences *)

Lemma occurrences_cons p x ps :
  occurrences p (x :: ps)
  = ((if decide (x = p) then 1 else 0) + occurrences p ps)%nat.
Proof. unfold occurrences. rewrite filter_cons. by case_decide. Qed.

Lemma occurrences_app p ps qs :
  occurrences p (ps ++ qs) = (occurrences p ps + occurrences p qs)%nat.
Proof. unfold occurrences. by rewrite filter_app, length_app. Qed.


Lemma counter_update_exact counts ps bitmap :
  counts_exactly counts ps →
  counts_exactly (counter_update counts bitmap) (ps ++ bitmap).
Proof.
  unfold counter_update. revert counts ps.
  induction bitmap as [|x bitmap IH]; intros counts ps Hc; cbn [foldl].
  - by rewrite app_nil_r.
  - replace (ps ++ x :: bitmap)%list with ((ps ++ [x]) ++ bitmap)%list
      by (by rewrite <- app_assoc).
    apply IH. intros p. rewrite occurrences_app, occurrences_cons.
    change (occurrences p []) with 0%nat.
    destruct (decide (x = p)) as [->|Hne].
    + rewrite lookup_insert_eq, Hc. repeat case_decide; try lia; cbn; f_equal; lia.
    + rewrite lookup_insert_ne by done. rewrite Hc.
      repeat case_decide; try lia; f_equal; lia.
Qed.

Lemma count_bits_exact bitmaps : counts_exactly (count_bits bitmaps) (concat bitmaps).
Proof.
  unfold count_bits.
  assert (H : ∀ counts ps, counts_exactly counts ps →
            counts_exactly (foldl counter_update counts bitmaps) (ps ++ concat bitmaps)).
  { induction bitmaps as [|b bitmaps IH]; intros counts ps Hc; cbn [foldl concat].
    - by rewrite app_nil_r.
    - rewrite app_assoc. by apply IH, counter_update_exact. }
  apply (H ∅ []). intros p. by rewrite lookup_empty.
Qed.


(** The loop of [getUnionEncoding] builds the counter of the bitmaps of the
    tokens, when the client has one for each. *)
Lemma getUnionEncoding_counts self tokens bitmaps counts :
  collect (_getWordBitmap self) tokens = Ok bitmaps →
  for_each (λ counts t,
      bitmap ← _getWordBitmap self t; Ok (counter_update counts bitmap))
    tokens counts
  = Ok (foldl counter_update counts bitmaps).
Proof.
  revert bitmaps counts. induction tokens as [|t tokens IH];
    intros bitmaps counts Hb; cbn in Hb |- *.
  - by injection Hb as <-.
  - destruct (_getWordBitmap self t) as [b|]; [|discriminate].
    cbn in Hb |- *.
    destruct (collect (_getWordBitmap self) tokens) as [bs|]; [|discriminate].
    injection Hb as <-. by apply (IH bs).
Qed.

(** *** The ranking and its cut *)


Lemma elem_of_take_in {A} (x : A) k xs : x ∈ take k xs → x ∈ xs.
Proof. intros (i & Hx & _)%elem_of_take. by eapply list_elem_of_lookup_2. Qed.






(** The run of the witness: position 3 occurs three times and 2 twice; of
    the positions 1, 4 and 9, which occur once, the smallest takes the last
    place. *)
Example union_of_three_tokens :
  positions <$> getUnionEncoding comma_tokens tight_encoder "x,y,z" = Ok [1; 2; 3].
Proof. vm_compute. reflexivity. Qed.

(** * Further properties of the class *)

(** ** What [encode] returns and what it raises *)

Lemma finishEncoding_returns scaleEncoding self encoding r :
  finishEncoding scaleEncoding self encoding = Ok r →
  ∃ enc, r = Some enc
    ∧ PrimFloat.eqb (float_of_int (width enc * height enc)) 0%float = false
    ∧ sparsity enc
      = PrimFloat.div (float_of_int (Z.of_nat (length (positions enc))))
                      (float_of_int (width enc * height enc)).
Proof.
  unfold finishEncoding. destruct encoding as [enc|]; [|discriminate].
  destruct (if negb _ then _ else _) as [enc'|]; [|discriminate].
  run_bind. unfold sparsity_of, float_div.
  destruct (PrimFloat.eqb (float_of_int (width enc' * height enc')) 0%float) eqn:Hz;
    [discriminate|].
  intros [= <-]. eexists. split; [reflexivity|]. by split.
Qed.

(** X1. Whatever strategy produced it, an encoding that [encode] returns is a
    record, never [None], and its sparsity is the number of its positions
    divided by the area of its own grid, which is not zero. *)
Theorem encode_returns_consistent_sparsity tokenize scaleEncoding self text r :
  encode tokenize scaleEncoding self text = Ok r →
  ∃ enc, r = Some enc
    ∧ PrimFloat.eqb (float_of_int (width enc * height enc)) 0%float = false
    ∧ sparsity enc
      = PrimFloat.div (float_of_int (Z.of_nat (length (positions enc))))
                      (float_of_int (width enc * height enc)).
Proof.
  unfold encode. destruct text; try discriminate.
  destruct (match primary _ _ _ with Ok _ => _ | Raise _ => _ end) as [encoding|];
    [|discriminate].
  run_bind. apply finishEncoding_returns.
Qed.

(** An instance: the word "b" of the three-token vocabulary. *)
Lemma encode_returns_consistent_sparsity_witness :
  ∃ enc,
    Some {| text := "b"; sparsity := PrimFloat.div 3 100; df := 0%float;
            height := 10; width := 10; score := 0%float;
            positions := [10; 11; 12]; pos_types := [] |} = Some enc
    ∧ PrimFloat.eqb (float_of_int (width enc * height enc)) 0%float = false
    ∧ sparsity enc
      = PrimFloat.div (float_of_int (Z.of_nat (length (positions enc))))
                      (float_of_int (width enc * height enc)).
Proof.
  apply (encode_returns_consistent_sparsity one_token no_rescaling abc_encoder
           (PyStr "b")).
  vm_compute. reflexivity.
Defined.

Lemma subEncoding_not_unsuccessful tokenize self text method :
  _subEncoding tokenize self text method ≠ Raise UnsuccessfulEncodingError.
Proof.
  unfold _subEncoding.
  destruct (if String.eqb method "df" then _ else _) as [r|[]]; discriminate.
Qed.

(** X3. [_subEncoding] turns the [UnsuccessfulEncodingError] of the client into
    [None] and nothing else: it never raises that error itself, a method
    other than "df" and "keyword" is a [ValueError] that it does not
    swallow, and the keyword substitute is [None] exactly when the union
    encoding raised [UnsuccessfulEncodingError]. *)
Theorem subEncoding_swallows_only_unsuccessful tokenize self text method :
  _subEncoding tokenize self text method ≠ Raise UnsuccessfulEncodingError
  ∧ (if String.eqb method "df" || String.eqb method "keyword" then True
     else _subEncoding tokenize self text method
          = Raise (ValueError "method must be either 'df' or 'keyword'"))
  ∧ (_subEncoding tokenize self text "keyword" = Ok None
     ↔ getUnionEncoding tokenize self text = Raise UnsuccessfulEncodingError).
Proof.
  split; [apply subEncoding_not_unsuccessful|]. split.
  - unfold _subEncoding.
    destruct (String.eqb method "df"); [done|].
    by destruct (String.eqb method "keyword").
  - unfold _subEncoding. cbn [String.eqb Ascii.eqb Bool.eqb].
    destruct (getUnionEncoding tokenize self text) as [enc|[]]; cbn; split;
      (done || discriminate).
Qed.

(** X2. Unless the rescaling itself raises it, the [UnsuccessfulEncodingError]
    of the client never leaves [encode]: a client that has no encoding shows
    as another outcome. *)
Theorem encode_hides_unsuccessful tokenize scaleEncoding self text :
  (∀ ps s, scaleEncoding ps s ≠ Raise UnsuccessfulEncodingError) →
  encode tokenize scaleEncoding self text ≠ Raise UnsuccessfulEncodingError.
Proof.
  intros Hscale. unfold encode. destruct text; try discriminate.
  pose proof (subEncoding_not_unsuccessful tokenize self s "keyword") as Hsub.
  destruct (primary tokenize self s) as [enc|e].
  - run_bind. unfold finishEncoding.
    destruct (negb _).
    + pose proof (Hscale (positions enc) (retinaScaling self)) as Hs.
      destruct (scaleEncoding _ _) as [ps|e]; [|by intros [= ->]].
      run_bind. unfold sparsity_of, float_div.
      by destruct (PrimFloat.eqb _ _).
    + run_bind. unfold sparsity_of, float_div.
      by destruct (PrimFloat.eqb _ _).
  - assert (Hother : ∀ e', e' ≠ UnsuccessfulEncodingError →
              (Raise e' : result (option Encoding)) ≫= finishEncoding scaleEncoding self
              ≠ Raise UnsuccessfulEncodingError)
      by (intros e' He' [= ->]; done).
    destruct e; try (by apply Hother).
    destruct (_subEncoding tokenize self s "keyword") as [[enc|]|e'].
    + run_bind. unfold finishEncoding.
      destruct (negb _).
      * pose proof (Hscale (positions enc) (retinaScaling self)) as Hs.
        destruct (scaleEncoding _ _) as [ps|e]; [|by intros [= ->]].
        run_bind. unfold sparsity_of, float_div.
        by destruct (PrimFloat.eqb _ _).
      * run_bind. unfold sparsity_of, float_div.
        by destruct (PrimFloat.eqb _ _).
    + discriminate.
    + apply Hother. by intros ->.
Qed.

(** An instance: the rescaling that returns the positions as they are. *)
Lemma encode_hides_unsuccessful_witness :
  encode one_token no_rescaling (vocabulary_encoder 128 [] document 0.2%float)
    (PyStr "zzz")
  ≠ Raise UnsuccessfulEncodingError.
Proof.
  apply (encode_hides_unsuccessful one_token no_rescaling
           (vocabulary_encoder 128 [] document 0.2%float) (PyStr "zzz")).
  intros ps s. discriminate.
Defined.

(** ** [finishEncoding] with rescaling *)

(** X5. With a scale factor other than 1, [finishEncoding] replaces the
    positions by the rescaled ones and the dimensions by those of the
    encoder before it computes the sparsity, which is that of the rescaled
    positions over the grid of the encoder; the other fields stay. An
    exception of the rescaling is the one of [finishEncoding]. *)
Theorem finishEncoding_scaled scaleEncoding self enc :
  PrimFloat.eqb (retinaScaling self) 1%float = false →
  self_width self * self_height self ≠ 0 →
  Z.abs (self_width self * self_height self) < 2 ^ 63 →
  finishEncoding scaleEncoding self (Some enc)
  = match scaleEncoding (positions enc) (retinaScaling self) with
    | Raise e => Raise e
    | Ok ps =>
        Ok (Some {| text := text enc;
                    sparsity :=
                      PrimFloat.div (float_of_int (Z.of_nat (length ps)))
                        (float_of_int (self_width self * self_height self));
                    df := df enc;
                    height := self_height self; width := self_width self;
                    score := score enc; positions := ps;
                    pos_types := pos_types enc |})
    end.
Proof.
  intros Hs Hz Hr. unfold finishEncoding. rewrite Hs. cbn [negb].
  destruct (scaleEncoding _ _) as [ps|e]; [|done].
  run_bind. cbn [set_scaled positions width height].
  by rewrite sparsity_of_nonzero.
Qed.

(** An instance: three positions brought from 128 x 128 to 64 x 64. *)
Lemma finishEncoding_scaled_witness :
  finishEncoding halve_positions half_encoder
    (Some (mkEncoding "cat" 0%float 0.5%float 128 128 1%float [3; 5; 8] []))
  = Ok (Some {| text := "cat";
                sparsity := PrimFloat.div (float_of_int 3) (float_of_int (64 * 64));
                df := 0.5%float; height := 64; width := 64; score := 1%float;
                positions := [1; 2; 4]; pos_types := [] |}).
Proof.
  apply (finishEncoding_scaled halve_positions half_encoder
           (mkEncoding "cat" 0%float 0.5%float 128 128 1%float [3; 5; 8] []));
    [reflexivity | discriminate | reflexivity].
Defined.

(** ** The windows that [getWindowEncoding] returns *)

Lemma elem_of_merged bitmaps js W x :
  x ∈ merged bitmaps js W ↔ x ∈ W ∨ ∃ j, j ∈ js ∧ x ∈ bitmap_at bitmaps j.
Proof.
  unfold merged. revert W. induction js as [|j js IH]; intros W; cbn [foldl].
  - split; [by left|]. intros [H|(j & Hj & _)]; [done|]. by apply elem_of_nil in Hj.
  - rewrite IH, elem_of_union1d. split.
    + intros [[H|H]|(j' & Hj' & H)]; [by left| |].
      * right. exists j. split; [apply elem_of_cons; by left|done].
      * right. exists j'. split; [apply elem_of_cons; by right|done].
    + intros [H|(j' & Hj' & H)]; [by left; left|].
      apply elem_of_cons in Hj' as [->|Hj']; [by left; right|].
      right. by exists j'.
Qed.

Lemma merged_sorted bitmaps js W :
  js ≠ [] → StronglySorted Z.lt (merged bitmaps js W).
Proof.
  unfold merged. revert W. induction js as [|j js IH]; intros W Hne; [done|].
  cbn [foldl]. destruct js as [|j' js]; [apply union1d_strictly_sorted|].
  by apply IH.
Qed.

Lemma length_drop_repeats xs : (length (drop_repeats xs) ≤ length xs)%nat.
Proof.
  induction xs as [|a [|b xs'] IH]; [done..|].
  change (drop_repeats (a :: b :: xs'))
    with (if a =? b then drop_repeats (b :: xs') else a :: drop_repeats (b :: xs')).
  destruct (a =? b); cbn [length] in *; lia.
Qed.

Lemma union1d_length_le W B : (length (union1d W B) ≤ length W + length B)%nat.
Proof.
  unfold union1d. etrans; [apply length_drop_repeats|].
  by rewrite length_sorted, length_app.
Qed.

(** A walk that returns has merged a prefix of its indices. *)
Lemma window_walk_returns self bitmaps js W j0 W' j' :
  window_walk self bitmaps js W j0 = Ok (W', j') →
  ∃ k, (k ≤ length js)%nat
    ∧ W' = merged bitmaps (take k js) W
    ∧ j' = stopped_at js j0 k.
Proof.
  revert W j0. induction js as [|j js IH]; intros W j0 Hwalk; cbn in Hwalk.
  - injection Hwalk as <- <-. by exists 0%nat.
  - destruct (sparsity_of W (self_n self)) as [ws|]; [|discriminate].
    destruct (bitmaps !! j) as [next|] eqn:Hnext; [|discriminate].
    cbn in Hwalk.
    destruct (sparsity_of next (self_n self)) as [ns|]; [|discriminate].
    cbn in Hwalk.
    destruct (PrimFloat.ltb _ _).
    + injection Hwalk as <- <-. exists 0%nat. repeat split. cbn. lia.
    + apply IH in Hwalk as (k & Hk & -> & ->).
      exists (S k). split; [cbn; lia|].
      rewrite stopped_at_cons. cbn [take merged foldl].
      unfold bitmap_at. by rewrite Hnext.
Qed.

Lemma stopped_at_reversed_le i k :
  (k ≤ i)%nat → (stopped_at (reversed_xrange i) 0 k ≤ i)%nat.
Proof. intros Hk. rewrite stopped_at_reversed_xrange by done. case_decide; lia. Qed.

(** What one turn of the outer loop puts into the dictionary it emits. *)
Lemma window_at_emits self tokens bitmaps minSparsity i bitmap d :
  window_at self tokens bitmaps minSparsity i bitmap = Ok (Some d) →
  ∃ k j, (k ≤ i)%nat ∧ (j ≤ i)%nat
    ∧ win_bitmap d = merged bitmaps (take k (reversed_xrange i)) bitmap
    ∧ win_text d = slice tokens j (i + 1)
    ∧ sparsity_of (win_bitmap d) (self_n self) = Ok (win_sparsity d)
    ∧ PrimFloat.ltb minSparsity (win_sparsity d) = true.
Proof.
  unfold window_at.
  destruct (window_walk _ _ _ _ _) as [[W j]|] eqn:Hwalk; [|discriminate].
  run_bind.
  destruct (sparsity_of W (self_n self)) as [sp|] eqn:Hsp; [|discriminate].
  run_bind. destruct (PrimFloat.ltb minSparsity sp) eqn:Hmin; [|discriminate].
  intros [= <-]. cbn.
  apply window_walk_returns in Hwalk as (k & Hk & -> & ->).
  rewrite length_reversed_xrange in Hk.
  exists k, (stopped_at (reversed_xrange i) 0 k).
  split; [done|]. split; [by apply stopped_at_reversed_le|]. done.
Qed.

(** Every dictionary in the result of the outer loop was there at the start
    or is the one of some turn. *)
Lemma window_loop_emits self tokens bitmaps minSparsity rest i acc out d :
  window_loop self tokens bitmaps minSparsity rest i acc = Ok out →
  d ∈ out →
  d ∈ acc ∨ ∃ k bitmap, rest !! k = Some bitmap
             ∧ window_at self tokens bitmaps minSparsity (i + k) bitmap = Ok (Some d).
Proof.
  revert i acc. induction rest as [|b rest IH]; intros i acc Hloop Hd; cbn in Hloop.
  - injection Hloop as <-. by left.
  - destruct (window_at self tokens bitmaps minSparsity i b) as [w|] eqn:Hw;
      [|discriminate].
    cbn in Hloop. destruct (IH _ _ Hloop Hd) as [Hacc|(k & b' & Hk & Hat)].
    + destruct w as [d'|]; [|by left].
      apply elem_of_app in Hacc as [Hacc|Hacc]; [by left|].
      apply list_elem_of_singleton in Hacc as ->.
      right. exists 0%nat, b. by rewrite Nat.add_0_r.
    + right. exists (S k), b'. split; [done|].
      by replace (i + S k)%nat with (S i + k)%nat by lia.
Qed.


Lemma collect_length {A B} (f : A → result B) xs ys :
  collect f xs = Ok ys → length ys = length xs.
Proof.
  revert ys. induction xs as [|x xs IH]; intros ys H; cbn in H.
  - by injection H as <-.
  - destruct (f x); [|discriminate]. cbn in H.
    destruct (collect f xs) as [ys'|]; [|discriminate].
    injection H as <-. cbn. f_equal. by apply IH.
Qed.

(** X6. Every window of [getWindowEncoding] belongs to a token: it holds all
    the positions of the bitmap of that token, and every position it holds
    comes from the bitmap of that token or of a token before it, never of a
    later one. It is the bitmap of the token as the client gave it, or a
    strictly ascending list. *)
Theorem window_looks_backward_only self tokens minSparsity out d :
  getWindowEncoding self tokens minSparsity = Ok out →
  d ∈ out →
  ∃ bitmaps i bitmap,
    collect (_getWordBitmap self) tokens = Ok bitmaps
    ∧ bitmaps !! i = Some bitmap
    ∧ (∀ x, x ∈ bitmap → x ∈ win_bitmap d)
    ∧ (∀ x, x ∈ win_bitmap d → ∃ j, (j ≤ i)%nat ∧ x ∈ bitmap_at bitmaps j)
    ∧ (win_bitmap d = bitmap ∨ StronglySorted Z.lt (win_bitmap d)).
Proof.
  unfold getWindowEncoding. intros Hget Hd.
  destruct (collect (_getWordBitmap self) tokens) as [bitmaps|]; [|discriminate].
  run_bind in Hget.
  destruct (window_loop_emits _ _ _ _ _ _ _ _ _ Hget Hd) as [Hnil|(i & b & Hi & Hat)];
    [by apply elem_of_nil in Hnil|].
  cbn in Hat. apply window_at_emits in Hat as (k & j & Hk & _ & Hbit & _).
  exists bitmaps, i, b. split; [done|]. split; [done|]. rewrite Hbit.
  split; [|split].
  - intros x Hx. apply elem_of_merged. by left.
  - intros x [Hx|(j' & Hj' & Hx)]%elem_of_merged.
    + exists i. split; [done|]. unfold bitmap_at. by rewrite Hi.
    + exists j'. split; [|done].
      apply elem_of_take_in, list_elem_of_lookup in Hj' as [m Hm].
      pose proof (lookup_lt_Some _ _ _ Hm) as Hlt.
      rewrite length_reversed_xrange in Hlt.
      rewrite lookup_reversed_xrange in Hm by done. injection Hm as <-. lia.
  - destruct k as [|k]; [by left|right].
    apply merged_sorted. destruct i as [|i]; [lia|].
    by rewrite reversed_xrange_S.
Qed.

Lemma abc_windows_run :
  getWindowEncoding abc_encoder abc_tokens 0%float = Ok abc_windows.
Proof. vm_compute. reflexivity. Qed.

Lemma c_window_in : c_window ∈ abc_windows.
Proof. unfold abc_windows. do 2 apply list_elem_of_further. apply list_elem_of_here. Qed.

(** An instance: the window of the third of the three tokens. *)
Lemma window_looks_backward_only_witness :
  ∃ bitmaps i bitmap,
    collect (_getWordBitmap abc_encoder) abc_tokens = Ok bitmaps
    ∧ bitmaps !! i = Some bitmap
    ∧ (∀ x, x ∈ bitmap → x ∈ win_bitmap c_window)
    ∧ (∀ x, x ∈ win_bitmap c_window → ∃ j, (j ≤ i)%nat ∧ x ∈ bitmap_at bitmaps j)
    ∧ (win_bitmap c_window = bitmap ∨ StronglySorted Z.lt (win_bitmap c_window)).
Proof.
  apply (window_looks_backward_only abc_encoder abc_tokens 0%float abc_windows
           c_window abc_windows_run c_window_in).
Defined.

Lemma slice_last {A} (xs : list A) j i x :
  (j ≤ i)%nat → xs !! i = Some x → last (slice xs j (i + 1)) = Some x.
Proof.
  intros Hj Hx. pose proof (lookup_lt_Some _ _ _ Hx) as Hlt.
  unfold slice. rewrite last_lookup, length_take, length_drop.
  replace (Init.Nat.pred (Nat.min (i + 1 - j) (length xs - j))) with (i - j)%nat by lia.
  rewrite lookup_take_lt, lookup_drop by lia.
  by replace (j + (i - j))%nat with i by lia.
Qed.

(** X7. The text of a window is a run of consecutive tokens that ends with the
    token the window belongs to, the one whose bitmap it holds in full; so
    it is never empty. *)
Theorem window_text_ends_with_its_token self tokens minSparsity out d :
  getWindowEncoding self tokens minSparsity = Ok out →
  d ∈ out →
  ∃ bitmaps i j bitmap t,
    collect (_getWordBitmap self) tokens = Ok bitmaps
    ∧ (j ≤ i)%nat
    ∧ tokens !! i = Some t ∧ bitmaps !! i = Some bitmap
    ∧ (∀ x, x ∈ bitmap → x ∈ win_bitmap d)
    ∧ win_text d = take (i + 1 - j) (drop j tokens)
    ∧ last (win_text d) = Some t.
Proof.
  unfold getWindowEncoding. intros Hget Hd.
  destruct (collect (_getWordBitmap self) tokens) as [bitmaps|] eqn:Hb;
    [|discriminate].
  run_bind in Hget.
  destruct (window_loop_emits _ _ _ _ _ _ _ _ _ Hget Hd) as [Hnil|(i & b & Hi & Hat)];
    [by apply elem_of_nil in Hnil|].
  cbn in Hat. apply window_at_emits in Hat as (k & j & Hk & Hj & Hbit & Htext & _).
  pose proof (lookup_lt_Some _ _ _ Hi) as Hlt.
  rewrite (collect_length _ _ _ Hb) in Hlt.
  destruct (lookup_lt_is_Some_2 tokens i Hlt) as [t Ht].
  exists bitmaps, i, j, b, t. repeat split; try done.
  - intros x Hx. rewrite Hbit. apply elem_of_merged. by left.
  - rewrite Htext. by apply slice_last.
Qed.

(** An instance: the window of the third of the three tokens. *)
Lemma window_text_ends_with_its_token_witness :
  ∃ bitmaps i j bitmap t,
    collect (_getWordBitmap abc_encoder) abc_tokens = Ok bitmaps
    ∧ (j ≤ i)%nat
    ∧ abc_tokens !! i = Some t ∧ bitmaps !! i = Some bitmap
    ∧ (∀ x, x ∈ bitmap → x ∈ win_bitmap c_window)
    ∧ win_text c_window = take (i + 1 - j) (drop j abc_tokens)
    ∧ last (win_text c_window) = Some t.
Proof.
  apply (window_text_ends_with_its_token abc_encoder abc_tokens 0%float
           abc_windows c_window abc_windows_run c_window_in).
Defined.




(** ** The grid that [_setDimensions] configures *)

(** What a successful call has computed. *)
Lemma setDimensions_Ok RETINA_SIZES self retina s self' :
  _setDimensions RETINA_SIZES self retina s = Ok self' →
  ∃ dim w,
    RETINA_SIZES retina = Some dim
    ∧ int_of_float (PrimFloat.mul (float_of_int dim) s) = Ok w
    ∧ PrimFloat.ltb s 0%float = false
    ∧ self' = {| client := client self; retinaScaling := s;
                 self_width := w; self_height := w; self_n := w * w;
                 fingerprintType := fingerprintType self;
                 unionSparsity := unionSparsity self;
                 verbosity := verbosity self |}.
Proof.
  unfold _setDimensions.
  destruct (PrimFloat.ltb s 0%float) eqn:Hneg; [discriminate|].
  destruct (PrimFloat.ltb 1%float s); [discriminate|]. cbn [orb].
  destruct (RETINA_SIZES retina) as [dim|]; [|discriminate]. run_bind.
  destruct (int_of_float _) as [w|] eqn:Hw; [|discriminate]. run_bind.
  intros [= <-]. by exists dim, w.
Qed.

Lemma binary_round_aux_signed sx m e l :
  SF_signed sx (binary_round_aux prec emax sx m e l).
Proof.
  unfold binary_round_aux.
  destruct (shr_fexp prec emax m e l) as [mrs' e'].
  destruct (shr_fexp prec emax _ e' loc_Exact) as [mrs'' e''].
  destruct (shr_m mrs''); [done| |done].
  by destruct (e'' <=? emax - prec).
Qed.

Lemma float_of_int_signed z :
  0 ≤ z < 2 ^ 63 → SF_signed false (Prim2SF (float_of_int z)).
Proof.
  intros Hz. destruct z as [|p|p]; [done| |lia]. cbn [float_of_int].
  rewrite FloatAxioms.of_uint63_spec.
  rewrite Uint63.of_Z_spec, Z.mod_small by (change wB with (2 ^ 63); lia).
  cbn [binary_normalize]. unfold binary_round.
  destruct (shl_align _ _ _). apply binary_round_aux_signed.
Qed.

(** Truncation of a product of two floats that are not negative. *)
Lemma int_of_product_nonneg a s w :
  SF_signed false (Prim2SF a) →
  PrimFloat.ltb s 0%float = false →
  int_of_float (PrimFloat.mul a s) = Ok w → 0 ≤ w.
Proof.
  intros Ha Hs. unfold int_of_float.
  rewrite FloatAxioms.ltb_spec in Hs.
  change (Prim2SF 0%float) with (S754_zero false) in Hs.
  rewrite FloatAxioms.mul_spec. unfold SF64mul.
  destruct (Prim2SF a) as [sa|sa| |sa ma ea], (Prim2SF s) as [ss|ss| |ss ms es];
    cbn [SFmul]; try discriminate; try (intros [= <-]; lia).
  cbn in Ha. subst sa.
  destruct ss; [discriminate Hs|]. cbn [xorb].
  pose proof (binary_round_aux_signed false (Z.pos (ma * ms)) (ea + es) loc_Exact) as Hr.
  destruct (binary_round_aux _ _ _ _ _ _) as [?|?| |sr mr er]; try discriminate.
  - intros [= <-]. lia.
  - cbn in Hr. subst sr. intros [= <-]. cbn [cond_Zopp].
    apply Z.shiftl_nonneg. lia.
Qed.

(** X10. A call of [_setDimensions] that returns leaves a square grid: the
    height is the width, both computed from the width of the retina, and
    [getWidth] is their product. The scale factor is recorded and the other
    attributes are kept. When the table of retinas holds sizes that are
    machine integers and not negative, neither dimension is negative. *)
Theorem setDimensions_square_grid RETINA_SIZES self retina s self' :
  _setDimensions RETINA_SIZES self retina s = Ok self' →
  getDimensions self' = (self_width self', self_width self')
  ∧ getWidth self' = self_width self' * self_width self'
  ∧ retinaScaling self' = s
  ∧ client self' = client self
  ∧ fingerprintType self' = fingerprintType self
  ∧ unionSparsity self' = unionSparsity self
  ∧ ((∀ dim, RETINA_SIZES retina = Some dim → 0 ≤ dim < 2 ^ 63) →
     0 ≤ self_width self' ∧ 0 ≤ getWidth self').
Proof.
  intros (dim & w & Hdim & Hw & Hs & ->)%setDimensions_Ok.
  do 6 (split; [done|]). intros Htable. specialize (Htable dim Hdim).
  apply int_of_product_nonneg in Hw; [|by apply float_of_int_signed|done].
  unfold getWidth. cbn. split; [done|nia].
Qed.

(** An instance: the 128 x 128 retina scaled by 0.3, to 38 x 38. *)
Lemma setDimensions_square_grid_witness :
  let self' :=
    {| client := client abc_encoder; retinaScaling := 0.3%float;
       self_width := 38; self_height := 38; self_n := 1444;
       fingerprintType := word; unionSparsity := 0.05%float; verbosity := 0 |} in
  getDimensions self' = (self_width self', self_width self')
  ∧ getWidth self' = self_width self' * self_width self'
  ∧ retinaScaling self' = 0.3%float
  ∧ client self' = client abc_encoder
  ∧ fingerprintType self' = fingerprintType abc_encoder
  ∧ unionSparsity self' = unionSparsity abc_encoder
  ∧ ((∀ dim, cortipy_RETINA_SIZES "en_synonymous" = Some dim → 0 ≤ dim < 2 ^ 63) →
     0 ≤ self_width self' ∧ 0 ≤ getWidth self').
Proof.
  apply (setDimensions_square_grid cortipy_RETINA_SIZES abc_encoder
           "en_synonymous" 0.3%float).
  vm_compute. reflexivity.
Defined.

(** X11. A scale factor that is not a number passes the guard, since it is
    neither below 0 nor above 1: for a retina that the table knows the call
    fails in [int], with another [ValueError] than the one of the guard. *)
Theorem setDimensions_not_a_number RETINA_SIZES self retina s :
  Prim2SF s = S754_nan →
  _setDimensions RETINA_SIZES self retina s
  = match RETINA_SIZES retina with
    | Some _ => Raise (ValueError "cannot convert float NaN to integer")
    | None => Raise (KeyError retina)
    end.
Proof.
  intros Hnan. unfold _setDimensions.
  rewrite !FloatAxioms.ltb_spec, Hnan.
  replace (SFltb S754_nan (Prim2SF 0%float)) with false by reflexivity.
  replace (SFltb (Prim2SF 1%float) S754_nan) with false
    by (by destruct (Prim2SF 1%float)).
  cbn [orb]. destruct (RETINA_SIZES retina) as [dim|]; [|done]. run_bind.
  unfold int_of_float. rewrite FloatAxioms.mul_spec, Hnan. unfold SF64mul.
  by destruct (Prim2SF (float_of_int dim)).
Qed.

(** An instance: 0.0 / 0.0. *)
Lemma setDimensions_not_a_number_witness :
  _setDimensions cortipy_RETINA_SIZES abc_encoder "en_synonymous"
    (PrimFloat.div 0%float 0%float)
  = Raise (ValueError "cannot convert float NaN to integer").
Proof.
  apply (setDimensions_not_a_number cortipy_RETINA_SIZES abc_encoder
           "en_synonymous" (PrimFloat.div 0%float 0%float)).
  reflexivity.
Defined.

(** The product of any float with zero truncates to 0, when it truncates. *)
Lemma int_of_zero_product a w :
  int_of_float (PrimFloat.mul a 0%float) = Ok w → w = 0.
Proof.
  unfold int_of_float. rewrite FloatAxioms.mul_spec. unfold SF64mul.
  change (Prim2SF 0%float) with (S754_zero false).
  destruct (Prim2SF a); cbn [SFmul]; try discriminate; by intros [= <-].
Qed.

Lemma getWindowEncoding_empty_grid self t ts bitmaps minSparsity :
  self_n self = 0 →
  collect (_getWordBitmap self) (t :: ts) = Ok bitmaps →
  getWindowEncoding self (t :: ts) minSparsity
  = Raise (ZeroDivisionError "float division by zero").
Proof.
  intros Hn Hb. destruct bitmaps as [|b bs].
  { apply collect_length in Hb. discriminate Hb. }
  rewrite (getWindowEncoding_first_turn _ _ _ _ _ _ Hb).
  unfold window_at. cbn [reversed_xrange seq reverse window_walk]. run_bind.
  by rewrite Hn.
Qed.

(** X9. The scale factor 0 passes [_setDimensions] and leaves a grid of no
    bits; on the encoder so configured, [getWindowEncoding] fails with a
    [ZeroDivisionError] for every token list that is not empty and that the
    client can encode. *)
Theorem zero_scale_breaks_windows RETINA_SIZES self retina self' t ts bitmaps
    minSparsity :
  _setDimensions RETINA_SIZES self retina 0%float = Ok self' →
  collect (_getWordBitmap self) (t :: ts) = Ok bitmaps →
  getWidth self' = 0
  ∧ getDimensions self' = (0, 0)
  ∧ getWindowEncoding self' (t :: ts) minSparsity
    = Raise (ZeroDivisionError "float division by zero").
Proof.
  intros (dim & w & Hdim & Hw & Hs & ->)%setDimensions_Ok Hb.
  apply int_of_zero_product in Hw as ->.
  repeat split. by eapply getWindowEncoding_empty_grid.
Qed.

(** An instance: the three tokens after their encoder was scaled by 0. *)
Lemma zero_scale_breaks_windows_witness :
  let self' :=
    {| client := client abc_encoder; retinaScaling := 0%float;
       self_width := 0; self_height := 0; self_n := 0;
       fingerprintType := word; unionSparsity := 0.05%float; verbosity := 0 |} in
  getWidth self' = 0
  ∧ getDimensions self' = (0, 0)
  ∧ getWindowEncoding self' ("a" :: ["b"; "c"]) 0%float
    = Raise (ZeroDivisionError "float division by zero").
Proof.
  apply (zero_scale_breaks_windows cortipy_RETINA_SIZES abc_encoder
           "en_synonymous" _ "a" ["b"; "c"] abc_bitmaps 0%float);
    vm_compute; reflexivity.
Defined.

(** ** The type check of [createCategory] *)

(** X12. When [negatives] is left out, the check of [createCategory] looks at
    [positives and []]: it lets every [positives] through that is true, a
    string or a tuple as well as a list, and every list; it raises only for
    a false value that is not a list, such as [None] or an empty string. *)
Theorem createCategory_checks_only_false_positives createClassification self label
    positives :
  createCategory createClassification self label positives PyNone
  = (if truthy positives || isinstance_list positives
     then createClassification label positives (PyList [])
     else Raise (TypeError "Input bitmaps must be lists."))
  ∧ createCategory createClassification self label (PyStr "abc") PyNone
    = createClassification label (PyStr "abc") (PyList [])
  ∧ createCategory createClassification self label (PyStr "") PyNone
    = Raise (TypeError "Input bitmaps must be lists.").
Proof.
  repeat split. unfold createCategory, py_and.
  destruct (truthy positives); [done|].
  by destruct (isinstance_list positives).
Qed.

(** X13. With both arguments given, a true [positives] of any type passes as
    soon as [negatives] is a list: the check never looks at it. *)
Theorem createCategory_checks_one_argument createClassification self label
    positives negatives :
  truthy positives = true →
  isinstance_list negatives = true →
  createCategory createClassification self label positives negatives
  = createClassification label positives negatives.
Proof.
  intros Ht Hl. unfold createCategory, py_and. rewrite Ht.
  by destruct negatives.
Qed.

(** An instance: a number as positives. *)
Lemma createCategory_checks_one_argument_witness :
  createCategory echo_classification abc_encoder "animals" (PyInt 7)
    (PyList [PyList [PyInt 1]])
  = Ok (PyTuple [PyStr "animals"; PyInt 7; PyList [PyList [PyInt 1]]]).
Proof.
  apply (createCategory_checks_one_argument echo_classification abc_encoder
           "animals" (PyInt 7) (PyList [PyList [PyInt 1]]));
    reflexivity.
Defined.

(** ** The constructor *)

(** The outcome of the constructor once a key is found. *)
Lemma init_with_key environ new_client default_cacheDir RETINA_SIZES
    retina retinaScaling cacheDir verbosity fingerprintType unionSparsity apiKey key :
  (match apiKey with
   | Some k => if String.eqb k "" then environ !! "CORTICAL_API_KEY" = Some key
               else key = k
   | None => environ !! "CORTICAL_API_KEY" = Some key
   end) →
  __init__ environ new_client default_cacheDir RETINA_SIZES retina retinaScaling
    cacheDir verbosity fingerprintType unionSparsity apiKey
  = match _setDimensions RETINA_SIZES
            {| client := new_client key retina (default default_cacheDir cacheDir);
               retinaScaling := retinaScaling;
               self_width := 0; self_height := 0; self_n := 0;
               fingerprintType := fingerprintType;
               unionSparsity := unionSparsity; verbosity := verbosity |}
            retina retinaScaling with
    | Raise e => InitRaised e
    | Ok self => Constructed self key ("Cio Encoder", 0)
    end.
Proof.
  intros Hkey. unfold __init__. destruct apiKey as [k|].
  - rewrite (bool_decide_eq_false_2 (Some k = None)) by done. cbn [andb].
    destruct (String.eqb k ""); [by rewrite Hkey|by subst].
  - rewrite Hkey, (bool_decide_eq_false_2 (Some key = None)) by done.
    by rewrite andb_false_r.
Qed.

(** The outcome of the constructor when no key is found. *)
Lemma init_without_key environ new_client default_cacheDir RETINA_SIZES
    retina retinaScaling cacheDir verbosity fingerprintType unionSparsity apiKey :
  environ !! "CORTICAL_API_KEY" = None →
  (match apiKey with
   | Some k => String.eqb k "" = true
   | None => True
   end) →
  __init__ environ new_client default_cacheDir RETINA_SIZES retina retinaScaling
    cacheDir verbosity fingerprintType unionSparsity apiKey
  = match apiKey with
    | Some _ => InitRaised (KeyError "CORTICAL_API_KEY")
    | None => OSError "Missing API key."
    end.
Proof.
  intros Henv Hkey. unfold __init__. rewrite Henv. destruct apiKey as [k|].
  - rewrite (bool_decide_eq_false_2 (Some k = None)) by done. cbn [andb].
    by rewrite Hkey.
  - by rewrite !bool_decide_eq_true_2.
Qed.

(** X14. The constructor raises its [OSError] exactly when no key is passed and
    the environment has none. An empty key that is passed is not [None]: it
    gets by that test, and without a key in the environment the constructor
    then fails with a [KeyError] on the lookup. *)
Theorem init_missing_key environ new_client default_cacheDir RETINA_SIZES
    retina retinaScaling cacheDir verbosity fingerprintType unionSparsity apiKey :
  (__init__ environ new_client default_cacheDir RETINA_SIZES retina retinaScaling
     cacheDir verbosity fingerprintType unionSparsity apiKey
   = OSError "Missing API key."
   ↔ apiKey = None ∧ environ !! "CORTICAL_API_KEY" = None)
  ∧ (environ !! "CORTICAL_API_KEY" = None →
     __init__ environ new_client default_cacheDir RETINA_SIZES retina retinaScaling
       cacheDir verbosity fingerprintType unionSparsity (Some "")
     = InitRaised (KeyError "CORTICAL_API_KEY")).
Proof.
  split; [|intros Henv; by apply init_without_key].
  split.
  - intros Hinit.
    destruct (environ !! "CORTICAL_API_KEY") as [v|] eqn:Henv.
    + exfalso. revert Hinit.
      rewrite (init_with_key _ _ _ _ _ _ _ _ _ _ apiKey
                 (match apiKey with
                  | Some k => if String.eqb k "" then v else k
                  | None => v
                  end)).
      * by destruct (_setDimensions _ _ _ _).
      * destruct apiKey as [k|]; [|done]. by destruct (String.eqb k "").
    + destruct apiKey as [k|]; [exfalso|done]. revert Hinit.
      destruct (String.eqb k "") eqn:Hk.
      * by rewrite init_without_key by (done || by cbn).
      * rewrite (init_with_key _ _ _ _ _ _ _ _ _ _ (Some k) k) by (by rewrite Hk).
        by destruct (_setDimensions _ _ _ _).
  - intros [-> Henv]. by apply init_without_key.
Qed.

(** X15. The key that the instance keeps, and that its client was built with,
    is the one passed when that is not empty, and the one of the
    environment otherwise. The instance has the description of the class,
    the type, the union sparsity, the verbosity and the scale factor it was
    given, and a square grid. *)
Theorem init_keeps_the_key environ new_client default_cacheDir RETINA_SIZES
    retina scale cacheDir verbose kind budget apiKey self key description :
  __init__ environ new_client default_cacheDir RETINA_SIZES retina scale
    cacheDir verbose kind budget apiKey
  = Constructed self key description →
  (match apiKey with
   | Some k => if String.eqb k "" then environ !! "CORTICAL_API_KEY" = Some key
               else key = k
   | None => environ !! "CORTICAL_API_KEY" = Some key
   end)
  ∧ client self = new_client key retina (default default_cacheDir cacheDir)
  ∧ description = ("Cio Encoder", 0)
  ∧ fingerprintType self = kind
  ∧ unionSparsity self = budget
  ∧ verbosity self = verbose
  ∧ retinaScaling self = scale
  ∧ self_height self = self_width self
  ∧ self_n self = self_width self * self_height self.
Proof.
  intros Hinit.
  assert (Hfound : ∃ k,
    match apiKey with
    | Some k' => if String.eqb k' "" then environ !! "CORTICAL_API_KEY" = Some k
                 else k = k'
    | None => environ !! "CORTICAL_API_KEY" = Some k
    end).
  { destruct (environ !! "CORTICAL_API_KEY") as [v|] eqn:Henv.
    - destruct apiKey as [k'|]; [|by exists v].
      destruct (String.eqb k' ""); [by exists v|by exists k'].
    - destruct apiKey as [k'|].
      + destruct (String.eqb k' "") eqn:Hk; [|by exists k'].
        rewrite init_without_key in Hinit by done. discriminate Hinit.
      + rewrite init_without_key in Hinit by done. discriminate Hinit. }
  destruct Hfound as [k Hk].
  rewrite (init_with_key _ _ _ _ _ _ _ _ _ _ apiKey k Hk) in Hinit.
  destruct (_setDimensions _ _ _ _) as [self0|] eqn:Hset; [|discriminate].
  injection Hinit as -> -> <-.
  apply setDimensions_Ok in Hset as (dim & w & _ & _ & _ & ->).
  done.
Qed.

(** An instance: no key is passed, and the environment has one. *)
Lemma init_keeps_the_key_witness :
  let self := {| client := vocabulary_client 128 []; retinaScaling := 1%float;
                 self_width := 128; self_height := 128; self_n := 16384;
                 fingerprintType := document; unionSparsity := 0.2%float;
                 verbosity := 0 |} in
  key_environ !! "CORTICAL_API_KEY" = Some "key-of-the-environment"
  ∧ client self = empty_client "key-of-the-environment" "en_synonymous"
                    (default "CioCache" None)
  ∧ ("Cio Encoder", 0) = ("Cio Encoder", 0)
  ∧ fingerprintType self = document
  ∧ unionSparsity self = 0.2%float
  ∧ verbosity self = 0
  ∧ retinaScaling self = 1%float
  ∧ self_height self = self_width self
  ∧ self_n self = self_width self * self_height self.
Proof.
  apply (init_keeps_the_key key_environ empty_client "CioCache"
           cortipy_RETINA_SIZES "en_synonymous" 1%float None 0 document
           0.2%float None _ "key-of-the-environment" ("Cio Encoder", 0)).
  vm_compute. reflexivity.
Defined.

(** ** The dense array of [encodeIntoArray] *)

Lemma numpy_index_in_range len p :
  0 ≤ p < Z.of_nat len → numpy_index len p = Ok (Z.to_nat p).
Proof.
  intros Hp. unfold numpy_index.
  by replace ((0 <=? p) && (p <? Z.of_nat len)) with true by lia.
Qed.

Lemma numpy_index_out_of_range len p :
  Z.of_nat len ≤ p ∨ p < - Z.of_nat len →
  numpy_index len p = Raise (IndexError "index out of bounds").
Proof.
  intros Hp. unfold numpy_index.
  replace ((0 <=? p) && (p <? Z.of_nat len)) with false by lia.
  by replace ((- Z.of_nat len <=? p) && (p <? 0)) with false by lia.
Qed.

Lemma numpy_index_raises len p e :
  numpy_index len p = Raise e → e = IndexError "index out of bounds".
Proof.
  unfold numpy_index. repeat destruct (_ && _); try discriminate.
  by intros [= <-].
Qed.

Lemma collect_in_range len ps :
  (∀ p, p ∈ ps → 0 ≤ p < Z.of_nat len) →
  collect (numpy_index len) ps = Ok (Z.to_nat <$> ps).
Proof.
  induction ps as [|p ps IH]; intros Hps; [done|]. cbn [collect].
  rewrite numpy_index_in_range by apply Hps, list_elem_of_here.
  run_bind. rewrite IH; [done|].
  intros q Hq. by apply Hps, list_elem_of_further.
Qed.

Lemma collect_out_of_range len ps p :
  p ∈ ps → (Z.of_nat len ≤ p ∨ p < - Z.of_nat len) →
  collect (numpy_index len) ps = Raise (IndexError "index out of bounds").
Proof.
  intros Hin Hp. induction ps as [|q ps IH]; [by apply elem_of_nil in Hin|].
  cbn [collect]. apply elem_of_cons in Hin as [<-|Hin].
  - by rewrite numpy_index_out_of_range.
  - destruct (numpy_index len q) as [c|e] eqn:Hq.
    + run_bind. by rewrite (IH Hin).
    + by apply numpy_index_raises in Hq as ->.
Qed.

Lemma put_length (v : Z) cells out :
  length (foldl (λ out i, <[i := v]> out) out cells) = length out.
Proof.
  revert out. induction cells as [|c cells IH]; intros out; [done|].
  cbn [foldl]. by rewrite IH, length_insert.
Qed.

Lemma put_lookup (v : Z) cells out i :
  (i < length out)%nat →
  foldl (λ out i, <[i := v]> out) out cells !! i
  = if bool_decide (i ∈ cells) then Some v else out !! i.
Proof.
  revert out. induction cells as [|c cells IH]; intros out Hi; [done|].
  cbn [foldl]. rewrite IH by (by rewrite length_insert).
  destruct (decide (i = c)) as [->|Hne].
  - rewrite list_lookup_insert_eq by done.
    rewrite (bool_decide_eq_true_2 (c ∈ c :: cells)) by apply list_elem_of_here.
    by case_bool_decide.
  - rewrite list_lookup_insert_ne by done.
    apply (f_equal (λ b : bool, if b then Some v else out !! i)).
    apply bool_decide_ext. rewrite elem_of_cons.
    split; [by right|]. by intros [?|?].
Qed.

(** X16. When [encode] returns an encoding whose positions are indices of the
    array, [encodeIntoArray] leaves an array of the same length that holds 1
    in the cells named by a position and 0 in all the others: what the array
    held before does not show. *)
Theorem encodeIntoArray_marks_positions tokenize scaleEncoding self inputText
    output enc :
  encode tokenize scaleEncoding self inputText = Ok (Some enc) →
  (∀ p, p ∈ positions enc → 0 ≤ p < Z.of_nat (length output)) →
  ∃ out,
    encodeIntoArray tokenize scaleEncoding self inputText output = Ok out
    ∧ length out = length output
    ∧ ∀ i, (i < length output)%nat →
        out !! i = Some (if bool_decide (Z.of_nat i ∈ positions enc) then 1 else 0).
Proof.
  intros Henc Hps. unfold encodeIntoArray, numpy_put. rewrite Henc. run_bind.
  rewrite length_replicate, collect_in_range by done. run_bind.
  eexists. split; [reflexivity|]. split.
  - by rewrite put_length, length_replicate.
  - intros i Hi. rewrite put_lookup by (by rewrite length_replicate).
    rewrite lookup_replicate_2 by done.
    assert (Hiff : i ∈ Z.to_nat <$> positions enc ↔ Z.of_nat i ∈ positions enc).
    { rewrite list_elem_of_fmap. split.
      - intros (p & -> & Hp). specialize (Hps p Hp).
        by rewrite Z2Nat.id by lia.
      - intros Hp. exists (Z.of_nat i). by rewrite Nat2Z.id. }
    by rewrite (bool_decide_ext _ _ Hiff); case_bool_decide.
Qed.

(** An instance: the word "b" into an array of 100 cells that held 7. *)
Lemma encodeIntoArray_marks_positions_witness :
  let enc := {| text := "b"; sparsity := PrimFloat.div 3 100; df := 0%float;
                height := 10; width := 10; score := 0%float;
                positions := [10; 11; 12]; pos_types := [] |} in
  ∃ out,
    encodeIntoArray one_token no_rescaling abc_encoder (PyStr "b")
      (replicate 100 7) = Ok out
    ∧ length out = length (replicate 100 7)
    ∧ ∀ i, (i < length (replicate 100 7))%nat →
        out !! i = Some (if bool_decide (Z.of_nat i ∈ positions enc) then 1 else 0).
Proof.
  apply (encodeIntoArray_marks_positions one_token no_rescaling abc_encoder
           (PyStr "b") (replicate 100 7)).
  - vm_compute. reflexivity.
  - intros p Hp. cbn in Hp.
    repeat (apply elem_of_cons in Hp as [->|Hp]; [by vm_compute|]).
    by apply elem_of_nil in Hp.
Defined.

(** X17. A position that is no index of the array, beyond its end or before its
    start counted from the end, is not dropped: the call raises an
    [IndexError]. *)
Theorem encodeIntoArray_position_out_of_range tokenize scaleEncoding self
    inputText output enc p :
  encode tokenize scaleEncoding self inputText = Ok (Some enc) →
  p ∈ positions enc →
  Z.of_nat (length output) ≤ p ∨ p < - Z.of_nat (length output) →
  encodeIntoArray tokenize scaleEncoding self inputText output
  = Raise (IndexError "index out of bounds").
Proof.
  intros Henc Hp Hout. unfold encodeIntoArray, numpy_put. rewrite Henc. run_bind.
  rewrite length_replicate, (collect_out_of_range _ _ p) by done. done.
Qed.

(** An instance: the word "b" into an array of 12 cells. *)
Lemma encodeIntoArray_position_out_of_range_witness :
  encodeIntoArray one_token no_rescaling abc_encoder (PyStr "b") (replicate 12 0)
  = Raise (IndexError "index out of bounds").
Proof.
  apply (encodeIntoArray_position_out_of_range one_token no_rescaling abc_encoder
           (PyStr "b") (replicate 12 0)
           {| text := "b"; sparsity := PrimFloat.div 3 100; df := 0%float;
              height := 10; width := 10; score := 0%float;
              positions := [10; 11; 12]; pos_types := [] |} 12).
  - vm_compute. reflexivity.
  - cbn. do 2 apply list_elem_of_further. apply list_elem_of_here.
  - left. vm_compute. discriminate.
Defined.

(** ** The substitute by document frequency *)

(** The order of the floats, as [<] computes it, is transitive and
    irreflexive. *)
Lemma SFltb_trans x y z :
  SFltb x y = true → SFltb y z = true → SFltb x z = true.
Proof.
  unfold SFltb, SFcompare.
  destruct x as [sx|sx| |sx mx ex], y as [sy|sy| |sy my ey], z as [sz|sz| |sz mz ez];
    try discriminate; try done;
    repeat match goal with b : bool |- _ => destruct b end;
    try discriminate; try done;
    change (Pos.compare_cont Eq) with Pos.compare;
    destruct (Z.compare_spec ex ey), (Z.compare_spec ey ez), (Z.compare_spec ex ez);
    try discriminate; try done; try lia; subst;
    destruct (Pos.compare_spec mx my), (Pos.compare_spec my mz),
      (Pos.compare_spec mx mz);
    cbn; try discriminate; try done; lia.
Qed.

Lemma SFltb_irrefl x : SFltb x x = false.
Proof.
  unfold SFltb, SFcompare. destruct x as [s|s| |s m e]; try done.
  - by destruct s.
  - change (Pos.compare_cont Eq) with Pos.compare.
    rewrite Z.compare_refl, Pos.compare_refl. by destruct s.
Qed.

Lemma ltb_trans x y z :
  PrimFloat.ltb x y = true → PrimFloat.ltb y z = true → PrimFloat.ltb x z = true.
Proof. rewrite !FloatAxioms.ltb_spec. apply SFltb_trans. Qed.

Lemma ltb_irrefl x : PrimFloat.ltb x x = false.
Proof. rewrite FloatAxioms.ltb_spec. apply SFltb_irrefl. Qed.

(** The scan of [min]: the encoding it holds is one it has seen, and none
    it has seen has a smaller [df]. *)
Lemma min_scan_least (best : Encoding) (es : list Encoding) :
  let r := foldl (λ best x, if PrimFloat.ltb (df x) (df best) then x else best)
             best es in
  r ∈ best :: es
  ∧ ∀ x, x ∈ best :: es → PrimFloat.ltb (df x) (df r) = false.
Proof.
  cbn zeta.
  assert (H : ∀ seen, best ∈ seen →
            (∀ x, x ∈ seen → PrimFloat.ltb (df x) (df best) = false) →
            let r := foldl (λ best x, if PrimFloat.ltb (df x) (df best) then x else best)
                       best es in
            r ∈ (seen ++ es)%list
            ∧ ∀ x, x ∈ (seen ++ es)%list → PrimFloat.ltb (df x) (df r) = false).
  { revert best. induction es as [|y es IH]; intros best seen Hin Hleast; cbn zeta.
    - rewrite app_nil_r. by split.
    - cbn [foldl].
      replace (seen ++ y :: es)%list with ((seen ++ [y]) ++ es)%list
        by (by rewrite <- app_assoc).
      destruct (PrimFloat.ltb (df y) (df best)) eqn:Hy.
      + apply IH; [apply elem_of_app; right; apply list_elem_of_here|].
        intros x [Hx|Hx]%elem_of_app.
        * destruct (PrimFloat.ltb (df x) (df y)) eqn:Hxy; [|done].
          pose proof (Hleast x Hx) as Hc.
          by rewrite (ltb_trans _ _ _ Hxy Hy) in Hc.
        * apply list_elem_of_singleton in Hx as ->. apply ltb_irrefl.
      + apply IH; [apply elem_of_app; by left|].
        intros x [Hx|Hx]%elem_of_app; [by apply Hleast|].
        by apply list_elem_of_singleton in Hx as ->. }
  apply (H [best]); [apply list_elem_of_here|].
  intros x Hx. apply list_elem_of_singleton in Hx as ->. apply ltb_irrefl.
Qed.

(** X4. With the method "df", when the client tokenizes the text and has an
    encoding for every token, [_subEncoding] returns the encoding of one of
    the tokens, and no token has a smaller document frequency than the one
    returned. When there is no token at all, the [ValueError] of [min] over
    an empty list is raised, and not swallowed. *)
Theorem subEncoding_df_least tokenize self text parts encs :
  client_tokenize (client self) text = Ok parts →
  collect (getBitmap (client self)) (concat (split_comma <$> parts)) = Ok encs →
  match encs with
  | [] => _subEncoding tokenize self text "df"
          = Raise (ValueError "min() arg is an empty sequence")
  | _ :: _ =>
      ∃ enc, _subEncoding tokenize self text "df" = Ok (Some enc)
        ∧ enc ∈ encs
        ∧ ∀ x, x ∈ encs → PrimFloat.ltb (df x) (df enc) = false
  end.
Proof.
  intros Hparts Hencs. unfold _subEncoding. cbn [String.eqb Ascii.eqb Bool.eqb].
  rewrite Hparts. run_bind. rewrite Hencs. run_bind.
  destruct encs as [|e es]; [done|]. cbn [min_by_df]. run_bind.
  eexists. split; [reflexivity|]. apply min_scan_least.
Qed.

(** An instance: the three tokens, written with commas. *)
Lemma subEncoding_df_least_witness :
  ∃ enc, _subEncoding one_token abc_encoder "a,b,c" "df" = Ok (Some enc)
    ∧ enc ∈ [ {| text := "a"; sparsity := 0%float; df := 0%float;
                 height := 10; width := 10; score := 0%float;
                 positions := [1; 2]; pos_types := [] |};
              {| text := "b"; sparsity := 0%float; df := 0%float;
                 height := 10; width := 10; score := 0%float;
                 positions := [10; 11; 12]; pos_types := [] |};
              {| text := "c"; sparsity := 0%float; df := 0%float;
                 height := 10; width := 10; score := 0%float;
                 positions := [20; 21]; pos_types := [] |} ]
    ∧ ∀ x, x ∈ [ {| text := "a"; sparsity := 0%float; df := 0%float;
                    height := 10; width := 10; score := 0%float;
                    positions := [1; 2]; pos_types := [] |};
                 {| text := "b"; sparsity := 0%float; df := 0%float;
                    height := 10; width := 10; score := 0%float;
                    positions := [10; 11; 12]; pos_types := [] |};
                 {| text := "c"; sparsity := 0%float; df := 0%float;
                    height := 10; width := 10; score := 0%float;
                    positions := [20; 21]; pos_types := [] |} ] →
         PrimFloat.ltb (df x) (df enc) = false.
Proof.
  apply (subEncoding_df_least one_token abc_encoder "a,b,c" ["a,b,c"]
           [ {| text := "a"; sparsity := 0%float; df := 0%float;
                height := 10; width := 10; score := 0%float;
                positions := [1; 2]; pos_types := [] |};
             {| text := "b"; sparsity := 0%float; df := 0%float;
                height := 10; width := 10; score := 0%float;
                positions := [10; 11; 12]; pos_types := [] |};
             {| text := "c"; sparsity := 0%float; df := 0%float;
                height := 10; width := 10; score := 0%float;
                positions := [20; 21]; pos_types := [] |} ]);
    reflexivity.
Defined.

(** ** The bitmaps of the tokens *)

(** X18. The counter that the loop of [getUnionEncoding] builds holds, for every
    position, the number of times it occurs in the bitmaps of the tokens,
    repetitions within one bitmap included, and has no entry for a position
    that occurs in none. *)
Theorem union_counter_counts_occurrences self tokens bitmaps :
  collect (_getWordBitmap self) tokens = Ok bitmaps →
  ∃ counts,
    for_each (λ counts t,
        bitmap ← _getWordBitmap self t; Ok (counter_update counts bitmap))
      tokens ∅
    = Ok counts
    ∧ ∀ p, counts !! p
           = if decide (occurrences p (concat bitmaps) = 0%nat) then None
             else Some (occurrences p (concat bitmaps)).
Proof.
  intros Hb. exists (count_bits bitmaps). split.
  - by apply getUnionEncoding_counts.
  - apply count_bits_exact.
Qed.

(** An instance: the three tokens whose bitmaps share positions. *)
Lemma union_counter_counts_occurrences_witness :
  ∃ counts,
    for_each (λ counts t,
        bitmap ← _getWordBitmap tight_encoder t; Ok (counter_update counts bitmap))
      ["x"; "y"; "z"] ∅
    = Ok counts
    ∧ ∀ p, counts !! p
           = if decide (occurrences p (concat [[1; 2; 3]; [2; 3; 4]; [3; 9]]) = 0%nat)
             then None
             else Some (occurrences p (concat [[1; 2; 3]; [2; 3; 4]; [3; 9]])).
Proof.
  apply (union_counter_counts_occurrences tight_encoder ["x"; "y"; "z"]
           [[1; 2; 3]; [2; 3; 4]; [3; 9]]).
  reflexivity.
Defined.

Lemma collect_first_failure {A B} (f : A → result B) pre t post ys e :
  collect f pre = Ok ys → f t = Raise e →
  collect f (pre ++ t :: post) = Raise e.
Proof.
  revert ys. induction pre as [|x pre IH]; intros ys Hpre Ht; cbn in Hpre |- *.
  - by rewrite Ht.
  - destruct (f x); [|discriminate]. run_bind. cbn in Hpre.
    destruct (collect f pre) as [ys'|]; [|discriminate].
    by rewrite (IH ys').
Qed.

Lemma for_each_first_failure {A B S} (f : A → result B) (g : S → B → S)
    pre t post ys e acc :
  collect f pre = Ok ys → f t = Raise e →
  for_each (λ acc x, y ← f x; Ok (g acc y)) (pre ++ t :: post) acc = Raise e.
Proof.
  revert ys acc. induction pre as [|x pre IH]; intros ys acc Hpre Ht;
    cbn in Hpre |- *.
  - by rewrite Ht.
  - destruct (f x); [|discriminate]. run_bind. cbn in Hpre.
    destruct (collect f pre) as [ys'|]; [|discriminate].
    by apply (IH ys').
Qed.

(** X19. The union and the windows are all or nothing. When the client raises
    for one of the tokens, having encoded the ones before it, both
    [getUnionEncoding] and [getWindowEncoding] raise that same exception:
    no partial union and no window of the earlier tokens is returned. *)
Theorem token_failure_fails_the_whole tokenize self text pre t post bitmaps e
    minSparsity :
  tokenize text = (pre ++ t :: post)%list →
  collect (_getWordBitmap self) pre = Ok bitmaps →
  _getWordBitmap self t = Raise e →
  getUnionEncoding tokenize self text = Raise e
  ∧ getWindowEncoding self (tokenize text) minSparsity = Raise e.
Proof.
  intros Htokens Hpre Ht. split.
  - unfold getUnionEncoding. cbn zeta. rewrite Htokens.
    by rewrite (for_each_first_failure _ counter_update _ _ _ _ _ _ Hpre Ht).
  - unfold getWindowEncoding. rewrite Htokens.
    by rewrite (collect_first_failure _ _ _ _ _ _ Hpre Ht).
Qed.

(** An instance: a word that the vocabulary lacks, after two that it has. *)
Lemma token_failure_fails_the_whole_witness :
  getUnionEncoding comma_tokens abc_encoder "a,b,zzz,c"
  = Raise UnsuccessfulEncodingError
  ∧ getWindowEncoding abc_encoder (comma_tokens "a,b,zzz,c") 0%float
    = Raise UnsuccessfulEncodingError.
Proof.
  apply (token_failure_fails_the_whole comma_tokens abc_encoder "a,b,zzz,c"
           ["a"; "b"] "zzz" ["c"] [[1; 2]; [10; 11; 12]]
           UnsuccessfulEncodingError 0%float);
    reflexivity.
Defined.

(** ** The window of the first token *)

(** The outer loop appends to the list it was given: the windows it finds
    do not depend on those found before. *)
Lemma window_loop_appends self tokens bitmaps minSparsity rest i acc :
  window_loop self tokens bitmaps minSparsity rest i acc
  = (later ← window_loop self tokens bitmaps minSparsity rest i [];
     Ok (acc ++ later)%list).
Proof.
  revert i acc. induction rest as [|b rest IH]; intros i acc; cbn [window_loop].
  - run_bind. by rewrite app_nil_r.
  - destruct (window_at self tokens bitmaps minSparsity i b) as [w|e]; [|done].
    run_bind. rewrite (IH (S i) (match w with Some d => _ | None => _ end)).
    rewrite (IH (S i) (match w with Some d => [] ++ [d] | None => [] end)%list).
    destruct (window_loop self tokens bitmaps minSparsity rest (S i) []) as [later|e];
      [|done].
    run_bind. destruct w as [d|]; [|done]. by rewrite <- app_assoc.
Qed.

(** On a grid whose size is a non-zero machine integer, a turn of the outer
    loop for an index within the bitmaps returns. *)
Lemma window_at_returns self tokens bitmaps minSparsity i bitmap :
  self_n self ≠ 0 → Z.abs (self_n self) < 2 ^ 63 →
  (i ≤ length bitmaps)%nat →
  ∃ w, window_at self tokens bitmaps minSparsity i bitmap = Ok w.
Proof.
  intros Hn Hr Hi. unfold window_at.
  destruct (window_walk_trace self bitmaps (reversed_xrange i) bitmap 0%nat Hn Hr)
    as (k & _ & Hwalk & _).
  { apply Forall_forall. intros j Hj. apply list_elem_of_lookup in Hj as [m Hm].
    pose proof (lookup_lt_Some _ _ _ Hm) as Hlt.
    rewrite length_reversed_xrange in Hlt.
    rewrite lookup_reversed_xrange in Hm by done. injection Hm as <-. lia. }
  rewrite Hwalk. run_bind. rewrite sparsity_of_nonzero by done. run_bind.
  destruct (PrimFloat.ltb _ _); by eexists.
Qed.

Lemma window_loop_returns self tokens bitmaps minSparsity rest i acc :
  self_n self ≠ 0 → Z.abs (self_n self) < 2 ^ 63 →
  (i + length rest ≤ length bitmaps)%nat →
  ∃ out, window_loop self tokens bitmaps minSparsity rest i acc = Ok out.
Proof.
  intros Hn Hr. revert i acc.
  induction rest as [|b rest IH]; intros i acc Hi; cbn [window_loop].
  - by eexists.
  - cbn [length] in Hi.
    destruct (window_at_returns self tokens bitmaps minSparsity i b Hn Hr)
      as [w ->]; [lia|].
    run_bind. apply IH. lia.
Qed.

(** C8. Take a token list that is not empty and whose tokens the client can
    encode, with bitmaps [bitmaps]. The first turn of [getWindowEncoding] is
    the one of token 0, on [bitmaps[0]], and it merges nothing: the result of
    [getWindowEncoding] is the window whose bitmap is [bitmaps[0]] as it is
    and whose text is the first token alone, when the sparsity of that bitmap
    is above the filter, followed by the windows of the later tokens, which
    leave it where it is. On a grid whose size is a non-zero machine integer
    the call returns that list. *)
Theorem first_window_is_first_bitmap self t ts bitmaps minSparsity :
  collect (_getWordBitmap self) (t :: ts) = Ok bitmaps →
  ∃ bitmap0,
    bitmaps !! 0%nat = Some bitmap0
    ∧ getWindowEncoding self (t :: ts) minSparsity
      = (sp ← sparsity_of bitmap0 (self_n self);
         later ← window_loop self (t :: ts) bitmaps minSparsity
                   (drop 1 bitmaps) 1 [];
         Ok (if PrimFloat.ltb minSparsity sp
             then {| win_text := [t]; win_sparsity := sp;
                     win_bitmap := bitmap0 |} :: later
             else later))
    ∧ (∀ later d,
         window_loop self (t :: ts) bitmaps minSparsity (drop 1 bitmaps) 1 []
         = Ok later →
         d ∈ later →
         ∃ k bitmap, bitmaps !! S k = Some bitmap
           ∧ window_at self (t :: ts) bitmaps minSparsity (S k) bitmap
             = Ok (Some d))
    ∧ (self_n self ≠ 0 → Z.abs (self_n self) < 2 ^ 63 →
       ∃ later,
         window_loop self (t :: ts) bitmaps minSparsity (drop 1 bitmaps) 1 []
         = Ok later
         ∧ let sp := PrimFloat.div (float_of_int (Z.of_nat (length bitmap0)))
                       (float_of_int (self_n self)) in
           getWindowEncoding self (t :: ts) minSparsity
           = Ok (if PrimFloat.ltb minSparsity sp
                 then {| win_text := [t]; win_sparsity := sp;
                         win_bitmap := bitmap0 |} :: later
                 else later)).
Proof.
  intros Hb. destruct bitmaps as [|b0 bs].
  { apply collect_length in Hb. discriminate Hb. }
  exists b0. split; [done|].
  assert (Hget : getWindowEncoding self (t :: ts) minSparsity
    = (sp ← sparsity_of b0 (self_n self);
       later ← window_loop self (t :: ts) (b0 :: bs) minSparsity bs 1 [];
       Ok (if PrimFloat.ltb minSparsity sp
           then {| win_text := [t]; win_sparsity := sp; win_bitmap := b0 |} :: later
           else later))).
  { rewrite (getWindowEncoding_first_turn _ _ _ _ _ _ Hb).
    rewrite (proj2 (window_of_first_token self (t :: ts) (b0 :: bs) minSparsity b0)).
    destruct (sparsity_of b0 (self_n self)) as [sp|e]; [|done]. run_bind.
    cbn [take]. destruct (PrimFloat.ltb minSparsity sp); run_bind.
    - rewrite window_loop_appends.
      by destruct (window_loop self (t :: ts) (b0 :: bs) minSparsity bs 1 []).
    - by destruct (window_loop self (t :: ts) (b0 :: bs) minSparsity bs 1 []). }
  split; [exact Hget|]. split.
  - intros later d Hloop Hd. cbn [drop] in Hloop.
    destruct (window_loop_emits _ _ _ _ _ _ _ _ _ Hloop Hd)
      as [Hnil|(k & b & Hk & Hat)]; [by apply elem_of_nil in Hnil|].
    by exists k, b.
  - intros Hn Hr. cbn [drop].
    destruct (window_loop_returns self (t :: ts) (b0 :: bs) minSparsity bs 1 [] Hn Hr)
      as [later Hloop]; [cbn; lia|].
    exists later. split; [done|]. cbn zeta.
    rewrite Hget, sparsity_of_nonzero by done. run_bind. by rewrite Hloop.
Qed.

(** An instance: the three tokens, whose first bitmap has two bits. *)
Lemma first_window_is_first_bitmap_witness :
  ∃ bitmap0,
    abc_bitmaps !! 0%nat = Some bitmap0
    ∧ getWindowEncoding abc_encoder ("a" :: ["b"; "c"]) 0%float
      = (sp ← sparsity_of bitmap0 (self_n abc_encoder);
         later ← window_loop abc_encoder ("a" :: ["b"; "c"]) abc_bitmaps 0%float
                   (drop 1 abc_bitmaps) 1 [];
         Ok (if PrimFloat.ltb 0%float sp
             then {| win_text := ["a"]; win_sparsity := sp;
                     win_bitmap := bitmap0 |} :: later
             else later))
    ∧ (∀ later d,
         window_loop abc_encoder ("a" :: ["b"; "c"]) abc_bitmaps 0%float
           (drop 1 abc_bitmaps) 1 []
         = Ok later →
         d ∈ later →
         ∃ k bitmap, abc_bitmaps !! S k = Some bitmap
           ∧ window_at abc_encoder ("a" :: ["b"; "c"]) abc_bitmaps 0%float (S k) bitmap
             = Ok (Some d))
    ∧ (self_n abc_encoder ≠ 0 → Z.abs (self_n abc_encoder) < 2 ^ 63 →
       ∃ later,
         window_loop abc_encoder ("a" :: ["b"; "c"]) abc_bitmaps 0%float
           (drop 1 abc_bitmaps) 1 []
         = Ok later
         ∧ let sp := PrimFloat.div (float_of_int (Z.of_nat (length bitmap0)))
                       (float_of_int (self_n abc_encoder)) in
           getWindowEncoding abc_encoder ("a" :: ["b"; "c"]) 0%float
           = Ok (if PrimFloat.ltb 0%float sp
                 then {| win_text := ["a"]; win_sparsity := sp;
                         win_bitmap := bitmap0 |} :: later
                 else later)).
Proof.
  apply (first_window_is_first_bitmap abc_encoder "a" ["b"; "c"] abc_bitmaps
           0%float).
  reflexivity.
Defined.

(** The run of the instance: the first of the three windows is the bitmap of
    "a" and its one token. *)
Example first_window_of_three :
  head <$> getWindowEncoding abc_encoder abc_tokens 0%float
  = Ok (Some {| win_text := ["a"];
                win_sparsity := PrimFloat.div (float_of_int 2) (float_of_int 100);
                win_bitmap := [1; 2] |}).
Proof. vm_compute. reflexivity. Qed.
